(** * py-evm: the ECMUL precompile and the p2p service lifecycle

    A shallow embedding of [evm/precompiles/ecmul.py] and [p2p/service.py],
    with the properties their specification states about them.

    - [Ecmul]: the precompile, over the collaborators it imports (gas meter,
      point validation, curve arithmetic); [Bn128]: an instance of them.
    - [Token]: cancel tokens and their chaining.
    - [Service]: [BaseService] as a state/exception monad over a world of
      objects, with a logical clock for the awaits.
    - [EcmulFacts], [TokenFacts], [ServiceFacts]: their properties. *)

From Stdlib Require Import ZArith Lia.
From Stdlib.Strings Require Import Byte.
From stdpp Require Import base list strings.

Open Scope Z_scope.

(** ** Byte strings *)

Abbreviation bytes := (list byte).

Definition byte_of_Z (z : Z) : byte := default x00 (Byte.of_N (Z.to_N z)).
Definition Z_of_byte (b : byte) : Z := Z.of_N (Byte.to_N b).

(** [int.from_bytes(value, byteorder='big')]. *)
Definition big_endian_to_int (value : bytes) : Z :=
  fold_left (fun acc b => acc * 256 + Z_of_byte b) value 0.

(** [value.to_bytes(len, byteorder='big')] (the low [len] bytes of [value]). *)
Fixpoint to_bytes_be (len : nat) (value : Z) : bytes :=
  match len with
  | O => []
  | S k => to_bytes_be k (value / 256) ++ [byte_of_Z (value mod 256)]
  end.

(** [int.bit_length()]. *)
Definition bit_length (value : Z) : Z :=
  if value =? 0 then 0 else Z.log2 (Z.abs value) + 1.

(** Modelled from the spec: [evm.utils.numeric.int_to_big_endian] is not among
    the sources; it is the shortest big-endian encoding,
    [value.to_bytes(ceil(value.bit_length() / 8), 'big')]. *)
Definition int_to_big_endian (value : Z) : bytes :=
  to_bytes_be (Z.to_nat ((bit_length value + 7) / 8)) value.

(** Modelled from the spec: [evm.utils.padding.pad32] is not among the
    sources; it pads on the left with zero bytes up to 32 bytes
    ([value.rjust(32, b'\x00')]). *)
Definition pad32 (value : bytes) : bytes :=
  replicate (32 - length value) x00 ++ value.

(** Modelled from the spec: [evm.utils.padding.pad32r] is not among the
    sources; it pads on the right with zero bytes up to 32 bytes
    ([value.ljust(32, b'\x00')]). *)
Definition pad32r (value : bytes) : bytes :=
  value ++ replicate (32 - length value) x00.

(** Python's [data[lo:hi]] for [0 <= lo <= hi]. *)
Definition slice (lo hi : nat) (data : bytes) : bytes :=
  take (hi - lo) (drop lo data).


(** ** The ECMUL precompile ([evm/precompiles/ecmul.py]) *)

Module Ecmul.

(** [py_ecc.optimized_bn128.field_modulus]. *)
Definition field_modulus : Z :=
  21888242871839275222246405745257275088696311157297823662689037894645226208583.

(** [py_ecc]'s field element: an integer [n] kept reduced modulo
    [field_modulus]. *)
Module FQ.
Record t := mk { n : Z; n_range : (0 <=? n) && (n <? field_modulus) = true }.
End FQ.

(** The exceptions of [evm.exceptions]: [ValidationError], and any other
    ([OutOfGas], ...) by its class name. *)
Inductive error :=
| ValidationError (message : string)
| VMError (class_name message : string).

Record Message := { data : bytes }.

(** The part of a computation the precompile touches: [computation.gas_meter],
    [computation.msg] and [computation.output]. *)
Record Computation (GasMeter : Type) :=
  { gas_meter : GasMeter; msg : Message; output : bytes }.
Arguments gas_meter {GasMeter} _.
Arguments msg {GasMeter} _.
Arguments output {GasMeter} _.

(** The computation object is mutable: a call either returns it or raises,
    and in both cases leaves it in some state. *)
Inductive outcome (GasMeter : Type) :=
| Returned (computation : Computation GasMeter)
| Raised (e : error) (computation : Computation GasMeter).
Arguments Returned {GasMeter} _.
Arguments Raised {GasMeter} _ _.

Section Precompile.

(** The collaborators, none of which is among the sources:
    [constants.GAS_ECMUL]; [GasMeter.consume_gas], which updates the meter and
    may raise; [evm.utils.bn128.validate_point], which returns a point of the
    curve or raises; [bn128.multiply] and [bn128.normalize] of [py_ecc]. *)
Context {GasMeter Point : Type}.
Variable GAS_ECMUL : Z.
Variable consume_gas : GasMeter -> Z -> string -> GasMeter * option error.
Variable validate_point : Z -> Z -> error + Point.
Variable multiply : Point -> Z -> Point.
Variable normalize : Point -> FQ.t * FQ.t.

Definition _ecmull (data : bytes) : error + FQ.t * FQ.t :=
  let x_bytes := pad32r (slice 0 32 data) in
  let y_bytes := pad32r (slice 32 64 data) in
  let m_bytes := pad32r (slice 64 96 data) in
  let x := big_endian_to_int x_bytes in
  let y := big_endian_to_int y_bytes in
  let m := big_endian_to_int m_bytes in
  match validate_point x y with
  | inl e => inl e
  | inr p => inr (normalize (multiply p m))
  end.

Definition precompile_ecmul (computation : Computation GasMeter)
  : outcome GasMeter :=
  let '(meter, raised) :=
    consume_gas (gas_meter computation) GAS_ECMUL "ECMUL Precompile" in
  let computation :=
    {| gas_meter := meter; msg := msg computation;
       output := output computation |} in
  match raised with
  | Some e => Raised e computation
  | None =>
    match _ecmull (data (msg computation)) with
    | inl (ValidationError _) => Returned computation
    | inl e => Raised e computation
    | inr result =>
      let result_bytes :=
        pad32 (int_to_big_endian (FQ.n (fst result))) ++
        pad32 (int_to_big_endian (FQ.n (snd result))) in
      Returned {| gas_meter := gas_meter computation;
                  msg := msg computation;
                  output := result_bytes |}
    end
  end.

(** The input as the precompile reads it: cut or zero-filled on the right
    to 96 bytes. *)
Definition padded_input (data : bytes) : bytes :=
  take 96 (data ++ replicate 96 x00).

End Precompile.

End Ecmul.

(** ** An instance of the collaborators

    None of the collaborators is among the sources.  This module stands in
    for them where the precompile is run on concrete inputs: the curve
    arithmetic in the manner of [py_ecc.optimized_bn128] (projective
    coordinates over the prime field), a point validation, and a gas meter
    that is a count of the gas remaining.  The properties of the precompile
    are proved for any collaborators and do not depend on it. *)

Module Bn128.
Import Ecmul.

Lemma reduced (z : Z) :
  (0 <=? z mod field_modulus) && (z mod field_modulus <? field_modulus) = true.
Proof.
  pose proof (Z.mod_pos_bound z field_modulus eq_refl) as [H1 H2].
  apply andb_true_intro. split; [by apply Z.leb_le|by apply Z.ltb_lt].
Qed.

(** [FQ(z)]. *)
Definition fq (z : Z) : FQ.t := FQ.mk (z mod field_modulus) (reduced z).

Definition fq_add (a b : FQ.t) : FQ.t := fq (FQ.n a + FQ.n b).
Definition fq_sub (a b : FQ.t) : FQ.t := fq (FQ.n a - FQ.n b).
Definition fq_mul (a b : FQ.t) : FQ.t := fq (FQ.n a * FQ.n b).
Definition fq_eqb (a b : FQ.t) : bool := FQ.n a =? FQ.n b.

Fixpoint pow_mod (b : Z) (e : positive) (m : Z) : Z :=
  match e with
  | xH => b mod m
  | xO e' => let r := pow_mod b e' m in (r * r) mod m
  | xI e' => let r := pow_mod b e' m in (r * r * b) mod m
  end.

(** The inverse in the field, with [0] for [0]. *)
Definition fq_inv (a : FQ.t) : FQ.t :=
  fq (pow_mod (FQ.n a) (Z.to_pos (field_modulus - 2)) field_modulus).

Definition fq_div (a b : FQ.t) : FQ.t := fq_mul a (fq_inv b).

Definition Point : Type := FQ.t * FQ.t * FQ.t.

Definition b : FQ.t := fq 3.
Definition infinity : Point := (fq 1, fq 1, fq 0).

Definition is_inf (pt : Point) : bool := fq_eqb pt.2 (fq 0).

Definition is_on_curve (pt : Point) (b : FQ.t) : bool :=
  if is_inf pt then true
  else
    let '(x, y, z) := pt in
    fq_eqb (fq_sub (fq_mul (fq_mul y y) z) (fq_mul (fq_mul x x) x))
           (fq_mul b (fq_mul (fq_mul z z) z)).

Definition double (pt : Point) : Point :=
  let '(x, y, z) := pt in
  let W := fq_mul (fq 3) (fq_mul x x) in
  let S := fq_mul y z in
  let B := fq_mul (fq_mul x y) S in
  let H := fq_sub (fq_mul W W) (fq_mul (fq 8) B) in
  let S_squared := fq_mul S S in
  let newx := fq_mul (fq_mul (fq 2) H) S in
  let newy := fq_sub (fq_mul W (fq_sub (fq_mul (fq 4) B) H))
                     (fq_mul (fq_mul (fq 8) (fq_mul y y)) S_squared) in
  let newz := fq_mul (fq_mul (fq 8) S) S_squared in
  (newx, newy, newz).

Definition add (p1 p2 : Point) : Point :=
  if is_inf p1 || is_inf p2 then (if is_inf p2 then p1 else p2)
  else
    let '(x1, y1, z1) := p1 in
    let '(x2, y2, z2) := p2 in
    let U1 := fq_mul y2 z1 in
    let U2 := fq_mul y1 z2 in
    let V1 := fq_mul x2 z1 in
    let V2 := fq_mul x1 z2 in
    if fq_eqb V1 V2 && fq_eqb U1 U2 then double p1
    else if fq_eqb V1 V2 then infinity
    else
      let U := fq_sub U1 U2 in
      let V := fq_sub V1 V2 in
      let V_squared := fq_mul V V in
      let V_squared_times_V2 := fq_mul V_squared V2 in
      let V_cubed := fq_mul V V_squared in
      let W := fq_mul z1 z2 in
      let A := fq_sub (fq_sub (fq_mul (fq_mul U U) W) V_cubed)
                      (fq_mul (fq 2) V_squared_times_V2) in
      let newx := fq_mul V A in
      let newy := fq_sub (fq_mul U (fq_sub V_squared_times_V2 A))
                         (fq_mul V_cubed U2) in
      let newz := fq_mul V_cubed W in
      (newx, newy, newz).

Fixpoint multiply_pos (pt : Point) (n : positive) : Point :=
  match n with
  | xH => pt
  | xO n' => multiply_pos (double pt) n'
  | xI n' => add (multiply_pos (double pt) n') pt
  end.

Definition multiply (pt : Point) (n : Z) : Point :=
  match n with
  | Zpos n => multiply_pos pt n
  | _ => infinity
  end.

Definition normalize (pt : Point) : FQ.t * FQ.t :=
  let '(x, y, z) := pt in (fq_div x z, fq_div y z).

Definition validate_point (x y : Z) : error + Point :=
  if field_modulus <=? x then
    inl (ValidationError "Point x value is greater than field modulus")
  else if field_modulus <=? y then
    inl (ValidationError "Point y value is greater than field modulus")
  else if (x =? 0) && (y =? 0) then inr infinity
  else
    let p1 := (fq x, fq y, fq 1) in
    if is_on_curve p1 b then inr p1
    else inl (ValidationError "Point is not on the curve").

Definition GAS_ECMUL : Z := 40000.

(** A gas meter that is the gas remaining. *)
Definition consume_gas (gas_remaining amount : Z) (reason : string)
  : Z * option error :=
  if gas_remaining <? amount then
    (gas_remaining, Some (VMError "OutOfGas" reason))
  else (gas_remaining - amount, None).

Definition precompile_ecmul : Computation Z -> outcome Z :=
  Ecmul.precompile_ecmul GAS_ECMUL consume_gas validate_point multiply normalize.

(** A call with [gas] and the words [x], [y], [m] as input. *)
Definition call (gas x y m : Z) : Computation Z :=
  {| gas_meter := gas;
     msg := {| data := to_bytes_be 32 x ++ to_bytes_be 32 y ++ to_bytes_be 32 m |};
     output := [] |}.

End Bn128.

Close Scope Z_scope.

(** ** Cancel tokens *)

Module Token.

(** Modelled from the spec: [p2p/cancel_token.py] ([CancelToken] and its
    [chain], [trigger], [triggered]) is not among the sources.  A token has a
    diagnostic name and an own triggered bit, and refers to the tokens it was
    chained from; a chained token borrows them, it does not copy them.  The
    own bits are mutable and live in a store, a token names its bit by its
    index there; the references never change once the token exists. *)
#[warnings="-register-all"]
Inductive CancelToken :=
| Tok (name : string) (bit : nat) (chained : list CancelToken).

Definition name (t : CancelToken) : string := let 'Tok n _ _ := t in n.
Definition bit (t : CancelToken) : nat := let 'Tok _ b _ := t in b.
Definition chained (t : CancelToken) : list CancelToken :=
  let 'Tok _ _ c := t in c.

(** The store of own bits, one per token created so far. *)
Abbreviation bits := (list bool).

(** Every bit a token observes: its own and those of the chain behind it. *)
Fixpoint reach (t : CancelToken) : list nat :=
  match t with
  | Tok _ b c => b :: flat_map reach c
  end.

(** The token and everything it is chained from exist in the store. *)
Definition allocated (σ : bits) (t : CancelToken) : Prop :=
  Forall (fun i => i < length σ) (reach t).

(** Modelled from the spec: [new(name)] is fresh, untriggered, unlinked. *)
Definition new (name : string) (σ : bits) : CancelToken * bits :=
  (Tok name (length σ) [], σ ++ [false]).

(** Modelled from the spec: [chain(parent)] returns a composed token whose
    triggered state is the OR of this token and [parent]'s chain, and mutates
    neither. *)
Definition chain (self parent : CancelToken) (σ : bits) : CancelToken * bits :=
  (Tok (name self +:+ ":" +:+ name parent) (length σ) [self; parent],
   σ ++ [false]).

(** Modelled from the spec: [trigger()] idempotently sets this token's own
    bit. *)
Definition trigger (t : CancelToken) (σ : bits) : bits := <[bit t := true]> σ.

Definition own (σ : bits) (i : nat) : bool := default false (σ !! i).

(** Modelled from the spec: [triggered] is the OR of the token's own bit and
    of every bit of the chain behind it. *)
Fixpoint triggered (σ : bits) (t : CancelToken) : bool :=
  match t with
  | Tok _ b c => own σ b || existsb (triggered σ) c
  end.

(** A supervision tree [depth] levels deep under [parent]: at each level a
    service makes a token of its own and chains it to the token it was
    started with, as [BaseService.__init__] does. *)
Fixpoint descend (depth : nat) (parent : CancelToken) (σ : bits)
  : CancelToken * bits :=
  match depth with
  | O => (parent, σ)
  | S d =>
    let '(base, σ) := new "Service" σ in
    let '(token, σ) := chain base parent σ in
    descend d token σ
  end.

Section Induction.

Variable P : CancelToken -> Prop.
Hypothesis step : forall n b c, Forall P c -> P (Tok n b c).

Fixpoint CancelToken_rect' (t : CancelToken) : P t :=
  match t with
  | Tok n b c =>
    step n b c
      ((fix all (l : list CancelToken) : Forall P l :=
          match l with
          | [] => List.Forall_nil _
          | x :: l' => List.Forall_cons _ x l' (CancelToken_rect' x) (all l')
          end) c)
  end.

End Induction.

End Token.

(** ** Services ([p2p/service.py]) *)

Module Service.
Import Token.

(** Object identities: of a service instance, and of a Python list object. *)
Abbreviation sid := nat.
Abbreviation loc := nat.

(** The exceptions the module raises and handles: [RuntimeError],
    [p2p.exceptions.OperationCancelled] and [asyncio.TimeoutError]; any other
    [Exception], by its class name ([Fault]); and any [BaseException] that is
    no [Exception] ([KeyboardInterrupt], [SystemExit], [GeneratorExit]), by
    its class name ([Interrupt]). *)
Inductive exn :=
| RuntimeError (message : string)
| OperationCancelled (message : string)
| TimeoutError
| Fault (class_name : string)
| Interrupt (class_name : string).

(** [isinstance(e, Exception)]. *)
Definition is_Exception (e : exn) : bool :=
  match e with
  | Interrupt _ => false
  | _ => true
  end.

(** The attributes [BaseService.__init__] gives an instance.
    [own_child_services] is the instance's own [_child_services] entry, if it
    has one; [__init__] creates none. *)
Record BaseService := {
  class_name : string;
  _run_lock : bool;                 (* asyncio.Lock: locked() *)
  cleaned_up : bool;                (* asyncio.Event: is_set() *)
  cancel_token : CancelToken;
  own_child_services : option loc
}.

(** The objects of the program: the own bits of the tokens, the service
    instances, the list objects, and the futures handed to the event loop by
    [asyncio.ensure_future(child.run())]. *)
Record World := {
  token_bits : bits;
  services : list BaseService;
  list_objects : list (list sid);
  scheduled : list sid
}.

(** The class attributes of [BaseService]: [_child_services = []], one list
    object made when the class body runs, and [_wait_until_finished_timeout]. *)
Definition _child_services : loc := 0.
Definition _wait_until_finished_timeout : nat := 5.

(** The world once the module is imported: the class-level list exists and
    is empty. *)
Definition module_loaded : World :=
  {| token_bits := []; services := []; list_objects := [[]]; scheduled := [] |}.

Definition unbound : BaseService :=
  {| class_name := ""; _run_lock := false; cleaned_up := false;
     cancel_token := Tok "" 0 []; own_child_services := None |}.

Definition service (w : World) (s : sid) : BaseService :=
  default unbound (services w !! s).

Definition with_services (f : list BaseService -> list BaseService) (w : World)
  : World :=
  {| token_bits := token_bits w; services := f (services w);
     list_objects := list_objects w; scheduled := scheduled w |}.

Definition set_run_lock (s : sid) (b : bool) : World -> World :=
  with_services (alter (fun o =>
    {| class_name := class_name o; _run_lock := b; cleaned_up := cleaned_up o;
       cancel_token := cancel_token o;
       own_child_services := own_child_services o |}) s).

Definition set_cleaned_up (s : sid) : World -> World :=
  with_services (alter (fun o =>
    {| class_name := class_name o; _run_lock := _run_lock o; cleaned_up := true;
       cancel_token := cancel_token o;
       own_child_services := own_child_services o |}) s).

Definition with_token_bits (f : bits -> bits) (w : World) : World :=
  {| token_bits := f (token_bits w); services := services w;
     list_objects := list_objects w; scheduled := scheduled w |}.

(** Attribute lookup of [self._child_services]: the instance's own entry if
    there is one, the class attribute otherwise. *)
Definition child_services_loc (w : World) (s : sid) : loc :=
  default _child_services (own_child_services (service w s)).

Definition child_services (w : World) (s : sid) : list sid :=
  default [] (list_objects w !! child_services_loc w s).

(** [lst.append(x)] on the list object at [l]. *)
Definition list_append (l : loc) (x : sid) (w : World) : World :=
  {| token_bits := token_bits w; services := services w;
     list_objects := alter (fun xs => xs ++ [x]) l (list_objects w);
     scheduled := scheduled w |}.

Definition ensure_future (s : sid) (w : World) : World :=
  {| token_bits := token_bits w; services := services w;
     list_objects := list_objects w; scheduled := scheduled w ++ [s] |}.

(** *** What is observed of an execution *)

Inductive level := DEBUG | INFO | WARNING | ERROR.

(** What a race leaves behind: one of the awaitables (by position), the wait
    on the token, or the timer of the timeout. *)
Inductive loser := Awaited (i : nat) | TokenWait | Timer.

Inductive event :=
| Log (lv : level) (s : sid) (text : string)
| Acquired (s : sid)                (* the run-lock taken *)
| Released (s : sid)
| RunEntered (s : sid)              (* [_run()] started *)
| RunLeft (s : sid)                 (* [_run()] returned or raised *)
| Triggered (bit : nat)             (* [trigger()] on the token with that bit *)
| CleanupEntered (s : sid)          (* [_cleanup()] started *)
| CleanupLeft (s : sid)
| Resolved (s : sid)                (* a wait on [s.cleaned_up] resolved *)
| CleanedUpSet (s : sid)            (* [s.cleaned_up.set()] *)
| CalledBack (s : sid)              (* [finished_callback(s)] *)
| Abandoned (what : loser).         (* a pending awaitable or timer cancelled *)

#[export] Instance level_eq_dec : EqDecision level.
Proof. solve_decision. Defined.
#[export] Instance loser_eq_dec : EqDecision loser.
Proof. solve_decision. Defined.
#[export] Instance event_eq_dec : EqDecision event.
Proof. solve_decision. Defined.

(** The state a coroutine runs in: the objects, a logical clock (in the unit
    of the timeouts), and the events so far, each with its time. *)
Record St := {
  world : World;
  clock : nat;
  trace : list (nat * event)
}.

(** What awaiting a coroutine gives: its value, an exception, or nothing
    ever ([Blocked], with the state after its last step). *)
Inductive Outcome (A : Type) :=
| Returned (a : A) (st : St)
| Raised (e : exn) (st : St)
| Blocked (st : St).
Arguments Returned {A} _ _.
Arguments Raised {A} _ _.
Arguments Blocked {A} _.

Definition state_of {A} (o : Outcome A) : St :=
  match o with
  | Returned _ st | Raised _ st | Blocked st => st
  end.

Definition M (A : Type) : Type := St -> Outcome A.

#[export] Instance M_ret : MRet M := fun A a st => Returned a st.
#[export] Instance M_bind : MBind M := fun A B k m st =>
  match m st with
  | Returned a st' => k a st'
  | Raised e st' => Raised e st'
  | Blocked st' => Blocked st'
  end.

Definition raise {A} (e : exn) : M A := fun st => Raised e st.

Definition gets {A} (f : World -> A) : M A := fun st => Returned (f (world st)) st.

Definition modify (f : World -> World) : M unit := fun st =>
  Returned () {| world := f (world st); clock := clock st; trace := trace st |}.

Definition emit (e : event) : M unit := fun st =>
  Returned () {| world := world st; clock := clock st;
                 trace := trace st ++ [(clock st, e)] |}.

(** [try: body except ...: handler]: [handlers e] is the body of the first
    [except] clause that matches [e], if one does. *)
Definition try_except {A} (body : M A) (handlers : exn -> option (M A)) : M A :=
  fun st =>
    match body st with
    | Raised e st' =>
      match handlers e with Some h => h st' | None => Raised e st' end
    | o => o
    end.

(** [try: body finally: final]: [final] runs however [body] ends; an
    exception of [final] replaces the pending one. *)
Definition try_finally {A} (body : M A) (final : M unit) : M A := fun st =>
  match body st with
  | Returned a st' =>
    match final st' with
    | Returned _ st'' => Returned a st''
    | Raised e st'' => Raised e st''
    | Blocked st'' => Blocked st''
    end
  | Raised e st' =>
    match final st' with
    | Returned _ st'' => Raised e st''
    | Raised e' st'' => Raised e' st''
    | Blocked st'' => Blocked st''
    end
  | Blocked st' => Blocked st'
  end.

(** [try: body except ...: handler else: orelse]. *)
Definition try_except_else (body : M unit) (handlers : exn -> option (M unit))
    (orelse : M unit) : M unit := fun st =>
  match body st with
  | Returned _ st' => orelse st'
  | Raised e st' =>
    match handlers e with Some h => h st' | None => Raised e st' end
  | Blocked st' => Blocked st'
  end.

Definition log (lv : level) (s : sid) (text : string) : M unit :=
  emit (Log lv s text).

(** *** The subclass and the rest of the event loop *)

(** What awaiting a coroutine written by the user comes to: it never
    finishes, or it finishes after some time, normally or raising, and leaves
    the objects in some state. *)
Inductive Completion :=
| Never
| Finishes (after : nat) (raised : option exn) (w : World).

(** The two abstract methods a subclass of [BaseService] supplies. *)
Record Methods := {
  _run : World -> Completion;
  _cleanup : World -> Completion
}.

(** [class EmptyService(BaseService)]: both methods are [pass]. *)
Definition EmptyService : Methods :=
  {| _run w := Finishes 0 None w; _cleanup w := Finishes 0 None w |}.

(** A completion callback, called with the service; it may raise. *)
Definition Callback : Type := sid -> World -> World * option exn.

(** Everything a coroutine does not decide itself: the methods of each
    instance's class and, for what other tasks do while it is suspended, the
    time at which each [cleaned_up] event gets set, each token bit gets
    triggered, and each run-lock that is held gets released by the [run()]
    that holds it ([None]: never). *)
Record Env := {
  methods : sid -> Methods;
  cleaned_up_at : sid -> option nat;
  triggered_at : nat -> option nat;
  released_at : sid -> option nat
}.

(** An awaitable handed to [wait_first]: when it finishes, counted from the
    moment it is awaited ([None]: never), and with what. *)
Record Awaitable (V : Type) := {
  finishes_after : option nat;
  result : exn + V
}.
Arguments finishes_after {V} _.
Arguments result {V} _.

(** How a race ends: an awaitable (by position) finished first, the token
    fired first, or the deadline passed first. *)
Inductive Winner (V : Type) :=
| Won (i : nat) (r : exn + V)
| Cancelled
| TimedOut.
Arguments Won {V} _ _.
Arguments Cancelled {V}.
Arguments TimedOut {V}.

(** Services of class [EmptyService] in an event loop where no other task
    sets an event or triggers a token. *)
Definition quiet : Env :=
  {| methods := fun _ => EmptyService;
     cleaned_up_at := fun _ => None;
     triggered_at := fun _ => None;
     released_at := fun _ => None |}.

Section Coroutines.

Variable env : Env.

(** [await] of one of the user's coroutines. *)
Definition await_method (entered left : event) (body : World -> Completion)
  : M unit := fun st =>
  let tr := trace st ++ [(clock st, entered)] in
  match body (world st) with
  | Never => Blocked {| world := world st; clock := clock st; trace := tr |}
  | Finishes after raised w =>
    let st' := {| world := w; clock := clock st + after;
                  trace := tr ++ [(clock st + after, left)] |} in
    match raised with
    | None => Returned () st'
    | Some e => Raised e st'
    end
  end.

(** [self.is_running]: [self._run_lock.locked()]. *)
Definition is_running (w : World) (s : sid) : bool := _run_lock (service w s).

(** [await lock.acquire()]: immediate on a free lock; on a held one it waits
    for a release, which nothing here performs. *)
Definition acquire (s : sid) : M unit := fun st =>
  if is_running (world st) s then Blocked st
  else (modify (set_run_lock s true) ;; emit (Acquired s)) st.

Definition release (s : sid) : M unit :=
  modify (set_run_lock s false) ;; emit (Released s).

(** [async with self._run_lock: body]. *)
Definition async_with_run_lock {A} (s : sid) (body : M A) : M A :=
  acquire s ;; try_finally body (release s).

(** [token.trigger()]. *)
Definition token_trigger (t : CancelToken) : M unit :=
  modify (with_token_bits (trigger t)) ;; emit (Triggered (bit t)).

(** [CancelToken(name)]. *)
Definition token_new (name : string) : M CancelToken := fun st =>
  let '(t, σ) := new name (token_bits (world st)) in
  Returned t {| world := with_token_bits (fun _ => σ) (world st);
                clock := clock st; trace := trace st |}.

(** [a.chain(b)]. *)
Definition token_chain (a b : CancelToken) : M CancelToken := fun st =>
  let '(c, σ) := chain a b (token_bits (world st)) in
  Returned c {| world := with_token_bits (fun _ => σ) (world st);
                clock := clock st; trace := trace st |}.

(** Something that happens at [when] has happened by [t]. *)
Definition happened (when : option nat) (t : nat) : bool :=
  match when with
  | Some t' => bool_decide (t' ≤ t)
  | None => false
  end.

(** The objects once the other tasks have run until [t]: the events set,
    the token bits triggered and the run-locks released by then are so. *)
Definition caught_up (t : nat) (w : World) : World :=
  {| token_bits :=
       imap (fun i b => b || happened (triggered_at env i) t) (token_bits w);
     services :=
       imap (fun s o =>
               {| class_name := class_name o;
                  _run_lock :=
                    _run_lock o && negb (happened (released_at env s) t);
                  cleaned_up :=
                    cleaned_up o || happened (cleaned_up_at env s) t;
                  cancel_token := cancel_token o;
                  own_child_services := own_child_services o |})
            (services w);
     list_objects := list_objects w; scheduled := scheduled w |}.

(** When a wait on [c.cleaned_up] started in [st] resolves: at once if the
    event is set, else when the event gets set. *)
Definition resolves_at (st : St) (c : sid) : option nat :=
  if cleaned_up (service (world st) c) then Some (clock st)
  else (fun t => t `max` clock st) <$> cleaned_up_at env c.

Definition resolve (t : nat) (c : sid) (st : St) : St :=
  {| world := set_cleaned_up c (world st); clock := clock st `max` t;
     trace := trace st ++ [(t, Resolved c)] |}.

(** [await c.cleaned_up.wait()] as a task of its own: the other tasks run
    until it resolves. *)
Definition await_cleaned_up (c : sid) : M unit := fun st =>
  match resolves_at st c with
  | Some t =>
    Returned ()
      (resolve t c
         {| world := caught_up t (world st); clock := clock st;
            trace := trace st |})
  | None => Blocked st
  end.

(** The waits among [waits], started in [start], that resolve (by [limit],
    if there is one), recorded on [st]. *)
Fixpoint settle (limit : option nat) (start : St) (waits : list sid) (st : St)
  : St :=
  match waits with
  | [] => st
  | c :: rest =>
    let st' :=
      match resolves_at start c with
      | Some t =>
        if default true ((fun l => bool_decide (t ≤ l)) <$> limit)
        then resolve t c st else st
      | None => st
      end in
    settle limit start rest st'
  end.

Definition all_resolve (start : St) (waits : list sid) : bool :=
  forallb (fun c => bool_decide (is_Some (resolves_at start c))) waits.

(** [await asyncio.gather] of the [cleaned_up.wait()] of every service in
    [waits] and of [body]: the waits and [body] all start now and run side by
    side.  It returns when the last of them is done; an exception of [body]
    is raised as soon as it occurs; it never returns if one of them never
    finishes. *)
Definition gather (waits : list sid) (body : M unit) : M unit := fun st =>
  match body st with
  | Raised e st' => Raised e (settle (Some (clock st')) st waits st')
  | Blocked st' => Blocked (settle None st waits st')
  | Returned _ st' =>
    if all_resolve st waits then Returned () (settle None st waits st')
    else Blocked (settle None st waits st')
  end.

(** [await asyncio.wait_for(aw, timeout)]: [aw] if it is done by the
    deadline, else [aw] is cancelled and [TimeoutError] raised at the
    deadline, the other tasks having run until then. *)
Definition wait_for {A} (aw : M A) (timeout : nat) : M A := fun st =>
  let deadline := clock st + timeout in
  let expired :=
    Raised TimeoutError
      {| world := caught_up deadline (world st); clock := deadline;
         trace := trace st ++ [(deadline, Abandoned (Awaited 0))] |} in
  match aw st with
  | Returned a st' =>
    if bool_decide (clock st' ≤ deadline) then Returned a st' else expired
  | Raised e st' =>
    if bool_decide (clock st' ≤ deadline) then Raised e st' else expired
  | Blocked _ => expired
  end.

(** *** [BaseService] *)

(** [BaseService.__init__(self, token)] for a new instance of the class
    named [cls]; the result is the instance.  (The logger it also sets up is
    left out: log records go to the trace.) *)
Definition __init__ (cls : string) (token : option CancelToken) : M sid :=
  fun st =>
    let w := world st in
    let '(base_token, σ) := new cls (token_bits w) in
    let '(cancel_token, σ) :=
      match token with
      | None => (base_token, σ)
      | Some token => chain base_token token σ
      end in
    let self := length (services w) in
    Returned self
      {| world :=
           {| token_bits := σ;
              services := services w ++
                [{| class_name := cls; _run_lock := false; cleaned_up := false;
                    cancel_token := cancel_token;
                    own_child_services := None |}];
              list_objects := list_objects w; scheduled := scheduled w |};
         clock := clock st; trace := trace st |}.

Definition cleanup (s : sid) : M unit :=
  children ← gets (fun w => child_services w s);
  gather children
    (await_method (CleanupEntered s) (CleanupLeft s) (_cleanup (methods env s))) ;;
  modify (set_cleaned_up s) ;;
  emit (CleanedUpSet s).

(** [finished_callback(self)]. *)
Definition call_back (finished_callback : Callback) (s : sid) : M unit :=
  fun st =>
    let '(w, raised) := finished_callback s (world st) in
    let st' := {| world := w; clock := clock st;
                  trace := trace st ++ [(clock st, CalledBack s)] |} in
    match raised with
    | None => Returned () st'
    | Some e => Raised e st'
    end.

Definition run (s : sid) (finished_callback : option Callback) : M unit :=
  running ← gets (fun w => is_running w s);
  if running : bool then
    raise (RuntimeError "Cannot start the service while it's already running")
  else
    fired ← gets (fun w => triggered (token_bits w) (cancel_token (service w s)));
    if fired : bool then
      raise (RuntimeError
               "Cannot restart a service that has already been cancelled")
    else
      try_finally
        (try_except
           (async_with_run_lock s
              (await_method (RunEntered s) (RunLeft s) (_run (methods env s))))
           (fun e =>
              match e with
              | OperationCancelled _ => Some (log INFO s "%s finished: %s")
              | e =>
                if is_Exception e
                then Some (log ERROR s "Unexpected error in %r, exiting")
                else None
              end))
        (token ← gets (fun w => cancel_token (service w s));
         token_trigger token ;;
         cleanup s ;;
         match finished_callback with
         | Some finished_callback => call_back finished_callback s
         | None => mret ()
         end).

(** The result is the future of the child's [run()], as its position among
    the scheduled ones. *)
Definition run_child_service (s child_service : sid) : M nat :=
  l ← gets (fun w => child_services_loc w s);
  modify (list_append l child_service) ;;
  modify (ensure_future child_service) ;;
  gets (fun w => length (scheduled w) - 1).

Definition cancel (s : sid) : M unit :=
  fired ← gets (fun w => triggered (token_bits w) (cancel_token (service w s)));
  if fired : bool then
    log WARNING s "Tried to cancel %s, but it was already cancelled"
  else
    running ← gets (fun w => is_running w s);
    if negb running then
      raise (RuntimeError "Cannot cancel a service that has not been started")
    else
      log DEBUG s "Cancelling %s" ;;
      token ← gets (fun w => cancel_token (service w s));
      token_trigger token ;;
      try_except_else
        (wait_for (await_cleaned_up s) _wait_until_finished_timeout)
        (fun e =>
           match e with
           | TimeoutError =>
             Some (log INFO s
                     "Timed out waiting for %s to finish its cleanup, exiting anyway")
           | _ => None
           end)
        (log DEBUG s "%s finished cleanly").

(** *** Waiting with a token *)

(** [a] happens, and no later than [b]; [None] is never. *)
Definition no_later (a b : option nat) : bool :=
  match a, b with
  | Some x, Some y => bool_decide (x ≤ y)
  | Some _, None => true
  | None, _ => false
  end.

Definition sooner (a b : option nat) : option nat :=
  match a, b with
  | Some x, Some y => Some (x `min` y)
  | Some x, None => Some x
  | None, b => b
  end.

(** The first awaitable to finish, the leftmost of those if several finish
    together: its time, position and result. *)
Fixpoint first_done {V} (i : nat) (awaitables : list (Awaitable V))
  : option (nat * (nat * (exn + V))) :=
  match awaitables with
  | [] => None
  | a :: rest =>
    match finishes_after a, first_done (S i) rest with
    | Some t, Some (t', r) =>
      if bool_decide (t ≤ t') then Some (t, (i, result a)) else Some (t', r)
    | Some t, None => Some (t, (i, result a))
    | None, r => r
    end
  end.

(** How long from [st] until [token.wait()] resolves: no time if the token is
    triggered, else until the first bit of its chain gets triggered. *)
Definition fires_after (st : St) (token : CancelToken) : option nat :=
  if triggered (token_bits (world st)) token then Some 0
  else foldr sooner None
         ((fun i => (fun t => t - clock st) <$> triggered_at env i) <$>
          reach token).

(** The bits among [ids] that the other tasks have triggered by time [t]. *)
Definition catch_up (t : nat) (ids : list nat) (σ : bits) : bits :=
  foldr (fun i σ =>
           match triggered_at env i with
           | Some t' => if bool_decide (t' ≤ t) then <[i := true]> σ else σ
           | None => σ
           end) σ ids.

Definition still_pending {V} (t : nat) (a : Awaitable V) : bool :=
  match finishes_after a with
  | Some d => bool_decide (t < d)
  | None => true
  end.

Fixpoint pending {V} (i t : nat) (awaitables : list (Awaitable V)) : list loser :=
  match awaitables with
  | [] => []
  | a :: rest =>
    (if still_pending t a then [Awaited i] else []) ++ pending (S i) t rest
  end.

(** Modelled from the spec: the race the wait primitive runs.  The spec
    orders the three outcomes by which comes first and leaves ties open;
    here, of two that come together, the token goes before an awaitable and
    both go before the deadline. *)
Definition race {V} (done : option (nat * (nat * (exn + V))))
    (fires timeout : option nat) : option (nat * Winner V) :=
  if no_later fires (fst <$> done) && no_later fires timeout then
    (fun t => (t, Cancelled)) <$> fires
  else if no_later (fst <$> done) timeout then
    (fun d => (d.1, Won d.2.1 d.2.2)) <$> done
  else (fun t => (t, TimedOut)) <$> timeout.

(** Modelled from the spec: [p2p.cancel_token.wait_with_token] is not among
    the sources.  It races the awaitables against [token.wait()] and, if
    [timeout] is given, a timer: the result of the awaitable that finishes
    first, [OperationCancelled] if the token fires first, [TimeoutError] if
    the deadline passes first; whatever is still pending is cancelled before
    it returns.  With nothing ever finishing it stays blocked. *)
Definition wait_with_token {V} (awaitables : list (Awaitable V))
    (token : CancelToken) (timeout : option nat) : M V := fun st =>
  match race (first_done 0 awaitables) (fires_after st token) timeout with
  | None => Blocked st
  | Some (t, winner) =>
    let left :=
      pending 0 t awaitables ++
      (if winner is Cancelled then [] else [TokenWait]) ++
      (if winner is TimedOut then []
       else if timeout is Some _ then [Timer] else [])
    in
    let st' :=
      {| world :=
           with_token_bits (catch_up (clock st + t) (reach token)) (world st);
         clock := clock st + t;
         trace := trace st ++ ((fun l => (clock st + t, Abandoned l)) <$> left) |}
    in
    match winner with
    | Won _ (inr v) => Returned v st'
    | Won _ (inl e) => Raised e st'
    | Cancelled => Raised (OperationCancelled (name token)) st'
    | TimedOut => Raised TimeoutError st'
    end
  end.

Definition wait_first {V} (s : sid) (awaitables : list (Awaitable V))
    (token : option CancelToken) (timeout : option nat) : M V :=
  token_chain ←
    match token with
    | None => gets (fun w => cancel_token (service w s))
    | Some token =>
      own ← gets (fun w => cancel_token (service w s));
      token_chain token own
    end;
  wait_with_token awaitables token_chain timeout.

(** See [wait_first]. *)
Definition wait {V} (s : sid) (awaitable : Awaitable V)
    (token : option CancelToken) (timeout : option nat) : M V :=
  wait_first s [awaitable] token timeout.

(** *** Vocabulary of the statements *)

(** [a] does not happen before [t] ([not_before]), nor at [t] ([later]);
    [None] is never. *)
Definition not_before (a : option nat) (t : nat) : Prop :=
  match a with Some x => t <= x | None => True end.
Definition later (a : option nat) (t : nat) : Prop :=
  match a with Some x => t < x | None => True end.

(** A program starts with the module loaded, at time 0. *)
Definition boot : St := {| world := module_loaded; clock := 0; trace := [] |}.

(** The events an execution started in [st] added. *)
Definition added {A} (st : St) (o : Outcome A) : list (nat * event) :=
  drop (length (trace st)) (trace (state_of o)).

(** What [run] logs for the way [_run()] ended. *)
Definition handled (s : sid) (raised : option exn) : list event :=
  match raised with
  | None => []
  | Some (OperationCancelled _) => [Log INFO s "%s finished: %s"]
  | Some e =>
    if is_Exception e then [Log ERROR s "Unexpected error in %r, exiting"]
    else []
  end.

(** What [_run()] raised that no [except] clause of [run] handles, and how
    the [finally] block then ends: on its own exception if it raises, else
    on the pending one. *)
Definition unhandled (raised : option exn) : option exn :=
  match raised with
  | Some e => if is_Exception e then None else Some e
  | None => None
  end.

Definition reraised (pending : option exn) (o : Outcome unit) : Outcome unit :=
  match pending, o with
  | Some e, Returned _ st => Raised e st
  | _, _ => o
  end.

(** The state in which [run], started in [st], reaches its [finally] block
    when [_run()] ended after [after] with [raised] and left the objects as
    [w]. *)
Definition run_left (s : sid) (st : St) (after : nat) (raised : option exn)
    (w : World) : St :=
  {| world := set_run_lock s false w; clock := clock st + after;
     trace := (trace st ++
                 [(clock st, Acquired s); (clock st, RunEntered s);
                  (clock st + after, RunLeft s);
                  (clock st + after, Released s)]) ++
              ((fun e => (clock st + after, e)) <$> handled s raised) |}.

(** [st] once [self.cancel_token.trigger()] is done in it. *)
Definition own_token_triggered (s : sid) (st : St) : St :=
  let token := cancel_token (service (world st) s) in
  {| world := with_token_bits (trigger token) (world st); clock := clock st;
     trace := trace st ++ [(clock st, Triggered (bit token))] |}.

(** A step of user code from [w] to [w'] does not un-cancel the service [s]:
    if its cancel token was triggered, it still is. *)
Definition keeps_cancelled (s : sid) (w w' : World) : Prop :=
  triggered (token_bits w) (cancel_token (service w s)) = true ->
  triggered (token_bits w') (cancel_token (service w' s)) = true.

End Coroutines.

End Service.

(** * Properties *)

(** ** Byte strings *)

Open Scope Z_scope.

Section ByteFacts.

Lemma Z_of_byte_range b : 0 <= Z_of_byte b < 256.
Proof.
  unfold Z_of_byte. pose proof (Byte.to_N_bounded b) as H.
  lia.
Qed.

Lemma Z_of_byte_of_Z z : 0 <= z < 256 -> Z_of_byte (byte_of_Z z) = z.
Proof.
  intros Hz. unfold Z_of_byte, byte_of_Z.
  destruct (Byte.of_N (Z.to_N z)) as [b|] eqn:E.
  - apply Byte.to_of_N in E. simpl. rewrite E. lia.
  - apply Byte.of_N_None_iff in E. lia.
Qed.

Lemma byte_of_Z_0 : byte_of_Z 0 = x00.
Proof. reflexivity. Qed.

Lemma big_endian_to_int_snoc l b :
  big_endian_to_int (l ++ [b]) = big_endian_to_int l * 256 + Z_of_byte b.
Proof. unfold big_endian_to_int. by rewrite fold_left_app. Qed.

Lemma length_to_bytes_be len v : length (to_bytes_be len v) = len.
Proof.
  revert v. induction len as [|k IH]; intros v; simpl; [done|].
  rewrite length_app, IH. simpl. lia.
Qed.

Lemma to_bytes_be_zero len : to_bytes_be len 0 = replicate len x00.
Proof.
  induction len as [|k IH]; simpl; [done|].
  rewrite Zdiv_0_l, Zmod_0_l, IH, byte_of_Z_0.
  clear IH. induction k as [|k IH]; simpl; [done|]. by rewrite IH.
Qed.

Lemma big_endian_to_int_to_bytes_be len v :
  big_endian_to_int (to_bytes_be len v) = v mod 256 ^ Z.of_nat len.
Proof.
  revert v. induction len as [|k IH]; intros v.
  - simpl. by rewrite Z.mod_1_r.
  - cbn [to_bytes_be]. rewrite big_endian_to_int_snoc, IH.
    rewrite Z_of_byte_of_Z by (apply Z.mod_pos_bound; lia).
    rewrite Nat2Z.inj_succ, Z.pow_succ_r by lia.
    rewrite Z.rem_mul_r by lia. lia.
Qed.

(** Widening a big-endian encoding only adds leading zero bytes. *)
Lemma to_bytes_be_widen k j v :
  0 <= v < 256 ^ Z.of_nat k ->
  to_bytes_be (j + k) v = replicate j x00 ++ to_bytes_be k v.
Proof.
  revert v. induction k as [|k IH]; intros v Hv.
  - simpl in Hv. assert (v = 0) as -> by lia.
    rewrite Nat.add_0_r, to_bytes_be_zero. simpl. by rewrite app_nil_r.
  - rewrite Nat.add_succ_r. cbn [to_bytes_be].
    rewrite IH, app_assoc; [done|].
    rewrite Nat2Z.inj_succ, Z.pow_succ_r in Hv by lia.
    split; [apply Z.div_pos; lia|].
    apply Z.div_lt_upper_bound; lia.
Qed.

Lemma bit_length_bound v : 0 <= v -> v < 2 ^ bit_length v.
Proof.
  intros Hv. unfold bit_length. destruct (Z.eqb_spec v 0) as [->|Hne]; [done|].
  rewrite Z.abs_eq by lia.
  pose proof (Z.log2_spec v ltac:(lia)) as [_ H].
  by rewrite <- Z.add_1_r in H.
Qed.

Lemma bit_length_le v k : 0 <= k -> 0 <= v < 2 ^ k -> bit_length v <= k.
Proof.
  intros Hk Hv. unfold bit_length. destruct (Z.eqb_spec v 0) as [->|Hne]; [done|].
  rewrite Z.abs_eq by lia.
  assert (Z.log2 v < k); [|lia].
  apply Z.log2_lt_pow2; lia.
Qed.

(** Left-padding the shortest encoding of a 256-bit number gives its
    32-byte encoding. *)
Lemma pad32_int_to_big_endian v :
  0 <= v < 2 ^ 256 -> pad32 (int_to_big_endian v) = to_bytes_be 32 v.
Proof.
  intros Hv. unfold pad32, int_to_big_endian.
  set (bl := bit_length v).
  assert (0 <= bl <= 256) as Hbl.
  { split; [|by apply bit_length_le].
    unfold bl, bit_length. destruct (v =? 0); [done|].
    pose proof (Z.log2_nonneg (Z.abs v)). lia. }
  set (k := Z.to_nat ((bl + 7) / 8)).
  assert ((bl + 7) / 8 <= 32) as Hk32.
  { assert ((bl + 7) / 8 < 33); [apply Z.div_lt_upper_bound; lia | lia]. }
  assert (0 <= (bl + 7) / 8) as Hk0 by (apply Z.div_pos; lia).
  rewrite length_to_bytes_be.
  replace 32%nat with ((32 - k) + k)%nat at 2 by lia.
  apply eq_sym, to_bytes_be_widen.
  split; [lia|].
  eapply Z.lt_le_trans; [apply (bit_length_bound v); lia|].
  fold bl. replace 256 with (2 ^ 8) by done.
  rewrite <- Z.pow_mul_r by lia.
  apply Z.pow_le_mono_r; [lia|].
  unfold k. rewrite Z2Nat.id by lia.
  pose proof (Z.mul_div_le (bl + 7) 8 ltac:(lia)).
  pose proof (Z.mod_pos_bound (bl + 7) 8 ltac:(lia)).
  pose proof (Z.div_mod (bl + 7) 8 ltac:(lia)). lia.
Qed.

Lemma length_pad32r v : (length v <= 32)%nat -> length (pad32r v) = 32%nat.
Proof. intros H. unfold pad32r. rewrite length_app, length_replicate. lia. Qed.

Lemma length_slice lo hi (data : bytes) :
  (length (slice lo hi data) <= hi - lo)%nat.
Proof. unfold slice. rewrite length_take. lia. Qed.

End ByteFacts.

(** ** The ECMUL precompile *)

Module EcmulFacts.
Import Ecmul.

Section Precompile.

Context {GasMeter Point : Type}.
Variable GAS_ECMUL : Z.
Variable consume_gas : GasMeter -> Z -> string -> GasMeter * option error.
Variable validate_point : Z -> Z -> error + Point.
Variable multiply : Point -> Z -> Point.
Variable normalize : Point -> FQ.t * FQ.t.

Local Abbreviation _ecmull := (Ecmul._ecmull validate_point multiply normalize).
Local Abbreviation precompile_ecmul :=
  (Ecmul.precompile_ecmul GAS_ECMUL consume_gas validate_point multiply
     normalize).

Lemma FQ_n_256 (a : FQ.t) : 0 <= FQ.n a < 2 ^ 256.
Proof.
  destruct a as [n Hn]. simpl.
  apply andb_prop in Hn as [H1 H2].
  apply Z.leb_le in H1. apply Z.ltb_lt in H2.
  split; [done|]. eapply Z.lt_trans; [exact H2|]. done.
Qed.

(** Each padded slice is a 32-byte window of the padded input. *)
Lemma pad32r_slice lo (data : bytes) :
  (lo <= 64)%nat ->
  pad32r (slice lo (lo + 32) data) = slice lo (lo + 32) (padded_input data).
Proof.
  intros Hlo. unfold pad32r, slice, padded_input.
  replace (lo + 32 - lo)%nat with 32%nat by lia.
  rewrite (take_drop_commute (take 96 _)), take_take.
  replace (min (lo + 32) 96) with (lo + 32)%nat by lia.
  rewrite <- take_drop_commute.
  rewrite drop_app, drop_replicate, take_app, take_replicate.
  f_equal. f_equal. rewrite length_take, length_drop. lia.
Qed.

Lemma padded_input_app (data extra : bytes) :
  (96 <= length data)%nat -> padded_input (data ++ extra) = padded_input data.
Proof.
  intros H. unfold padded_input.
  rewrite <- !app_assoc, !take_app_le by done. done.
Qed.

Lemma _ecmull_padded (data : bytes) :
  _ecmull data =
  match validate_point (big_endian_to_int (slice 0 32 (padded_input data)))
                       (big_endian_to_int (slice 32 64 (padded_input data))) with
  | inl e => inl e
  | inr p =>
    inr (normalize
           (multiply p (big_endian_to_int (slice 64 96 (padded_input data)))))
  end.
Proof.
  unfold _ecmull.
  by rewrite (pad32r_slice 0), (pad32r_slice 32), (pad32r_slice 64) by lia.
Qed.

Lemma length_padded_input (data : bytes) : length (padded_input data) = 96%nat.
Proof.
  unfold padded_input.
  rewrite length_take, length_app, length_replicate. lia.
Qed.

(** Zero-filling or cutting the input to 96 bytes, and whatever follows those
    96 bytes, does not change what [_ecmull] computes. *)
Lemma _ecmull_input (data extra : bytes) :
  _ecmull (padded_input data ++ extra) = _ecmull data.
Proof.
  rewrite (_ecmull_padded (_ ++ _)), (_ecmull_padded data).
  assert (padded_input (padded_input data ++ extra) = padded_input data)
    as ->; [|done].
  rewrite padded_input_app by (rewrite length_padded_input; lia).
  unfold padded_input at 1.
  rewrite take_app_le by (rewrite length_padded_input; lia).
  apply take_ge. rewrite length_padded_input. lia.
Qed.

(** The 64 bytes of a result: two 32-byte big-endian numbers. *)
Lemma result_bytes_spec (a b : FQ.t) :
  let out := pad32 (int_to_big_endian (FQ.n a)) ++
             pad32 (int_to_big_endian (FQ.n b)) in
  out = to_bytes_be 32 (FQ.n a) ++ to_bytes_be 32 (FQ.n b) /\
  length out = 64%nat /\
  big_endian_to_int (take 32 out) = FQ.n a /\
  big_endian_to_int (drop 32 out) = FQ.n b.
Proof.
  intros out. unfold out.
  pose proof (FQ_n_256 a) as Ha. pose proof (FQ_n_256 b) as Hb.
  rewrite !pad32_int_to_big_endian by done.
  split; [done|]. split.
  { rewrite length_app, !length_to_bytes_be. done. }
  rewrite take_app_length' by (by rewrite length_to_bytes_be).
  rewrite drop_app_length' by (by rewrite length_to_bytes_be).
  rewrite !big_endian_to_int_to_bytes_be.
  replace (256 ^ Z.of_nat 32) with (2 ^ 256) by done.
  by rewrite !Z.mod_small by done.
Qed.

(** C10. [precompile_ecmul] first charges [GAS_ECMUL] to the gas meter.  It
    reads the input as three 32-byte big-endian words [x], [y], [m] of the
    input zero-filled on the right (or cut) to 96 bytes, so bytes from offset
    96 on are ignored.  If [validate_point x y] raises a [ValidationError],
    the computation is returned with the gas charged and the output as it
    was; if it returns a point [p], the output becomes the 64 bytes made of
    the 32-byte big-endian [x] and [y] of [normalize (multiply p m)].  (A
    raise of the gas meter, or of the validation with another error class,
    leaves the call with that error.) *)
Theorem precompile_ecmul_behaviour (computation : Computation GasMeter) :
  let input := padded_input (data (msg computation)) in
  let x := big_endian_to_int (slice 0 32 input) in
  let y := big_endian_to_int (slice 32 64 input) in
  let m := big_endian_to_int (slice 64 96 input) in
  let charged :=
    consume_gas (gas_meter computation) GAS_ECMUL "ECMUL Precompile" in
  let metered := {| gas_meter := fst charged; msg := msg computation;
                    output := output computation |} in
  (forall extra,
     _ecmull (input ++ extra) = _ecmull (data (msg computation))) /\
  match snd charged with
  | Some e => precompile_ecmul computation = Raised e metered
  | None =>
    match validate_point x y with
    | inl (ValidationError message) =>
      precompile_ecmul computation = Returned metered
    | inl e => precompile_ecmul computation = Raised e metered
    | inr p =>
      let product := normalize (multiply p m) in
      let out := to_bytes_be 32 (FQ.n (fst product)) ++
                 to_bytes_be 32 (FQ.n (snd product)) in
      precompile_ecmul computation =
        Returned {| gas_meter := fst charged; msg := msg computation;
                    output := out |} /\
      length out = 64%nat /\
      big_endian_to_int (take 32 out) = FQ.n (fst product) /\
      big_endian_to_int (drop 32 out) = FQ.n (snd product)
    end
  end.
Proof.
  intros input x y m charged metered.
  split; [intros extra; apply _ecmull_input|].
  unfold precompile_ecmul. fold charged.
  destruct charged as [meter raised] eqn:Hcharged. cbn [fst snd] in *.
  destruct raised as [e|]; [done|].
  cbn [msg gas_meter output]. rewrite _ecmull_padded.
  fold input. fold x y m.
  destruct (validate_point x y) as [[message|class_name message]|p]; [done..|].
  cbv zeta.
  destruct (result_bytes_spec (fst (normalize (multiply p m)))
              (snd (normalize (multiply p m)))) as (Hout & Hlen & Hx & Hy).
  rewrite Hout in *. done.
Qed.

(** *** Inputs shorter than three words *)

Lemma big_endian_to_int_zeros k : big_endian_to_int (replicate k x00) = 0.
Proof.
  by rewrite <- to_bytes_be_zero, big_endian_to_int_to_bytes_be, Z.mod_0_l
    by (apply Z.pow_nonzero; lia).
Qed.

Lemma pad32r_slice_beyond lo hi (data : bytes) :
  (length data <= lo)%nat ->
  big_endian_to_int (pad32r (slice lo hi data)) = 0.
Proof.
  intros H. unfold pad32r, slice. rewrite drop_ge by done.
  rewrite take_nil. cbn [app length]. apply big_endian_to_int_zeros.
Qed.

(** X10.  Zero bytes at the end of the input are not read as data of their
    own: an input and the same input followed by any number of zero bytes
    give the same result or the same error. *)
Theorem _ecmull_trailing_zeros (data : bytes) (k : nat) :
  _ecmull (data ++ replicate k x00) = _ecmull data.
Proof.
  rewrite (_ecmull_padded (_ ++ _)), (_ecmull_padded data).
  assert (padded_input (data ++ replicate k x00) = padded_input data)
    as ->; [|done].
  unfold padded_input.
  rewrite <- app_assoc, <- replicate_add, !take_app, !take_replicate.
  do 2 f_equal. lia.
Qed.

(** X11.  An input that stops before the scalar gives the product by zero
    of the point it names; one that stops before the second word names a
    point with [y = 0], and the empty input the point [(0, 0)].  The point is
    validated all the same. *)
Theorem _ecmull_short_input (data : bytes) :
  (length data <= 64)%nat ->
  let x := big_endian_to_int (pad32r (slice 0 32 data)) in
  let y := big_endian_to_int (pad32r (slice 32 64 data)) in
  _ecmull data =
    match validate_point x y with
    | inl e => inl e
    | inr p => inr (normalize (multiply p 0))
    end /\
  ((length data <= 32)%nat -> y = 0) /\
  (data = [] -> x = 0).
Proof.
  intros H x y. repeat apply conj.
  - unfold _ecmull. fold x y. by rewrite (pad32r_slice_beyond 64 96).
  - intros H32. by apply pad32r_slice_beyond.
  - intros ->. by apply pad32r_slice_beyond.
Qed.

End Precompile.

(** *** The precompile on concrete inputs *)

Import Bn128.

(** Twice the generator [(1, 2)]. *)
Example ecmul_double_generator :
  exists computation,
    Bn128.precompile_ecmul (call 50000 1 2 2) = Returned computation /\
    gas_meter computation = 10000 /\
    output computation =
      to_bytes_be 32
        1368015179489954701390400359078579693043519447331113978918064868415326638035 ++
      to_bytes_be 32
        9918110051302171585080402603319702774565515993150576347155970296011118125764.
Proof. eexists. split; [vm_compute; reflexivity|]. split; reflexivity. Qed.

(** [(1, 3)] is not on the curve: the gas is charged, the output stays. *)
Example ecmul_invalid_point :
  Bn128.precompile_ecmul (call 50000 1 3 2) =
  Returned {| gas_meter := 10000; msg := msg (call 50000 1 3 2); output := [] |}.
Proof. vm_compute. reflexivity. Qed.

(** An input of 64 bytes: the scalar is read as zero, the product is the
    point at infinity, written as 64 zero bytes. *)
Example ecmul_short_input :
  let computation :=
    {| gas_meter := 50000;
       msg := {| data := to_bytes_be 32 1 ++ to_bytes_be 32 2 |};
       output := [] |} in
  exists result,
    Bn128.precompile_ecmul computation = Returned result /\
    output result = replicate 64 x00.
Proof. eexists. split; [vm_compute; reflexivity|]. reflexivity. Qed.

(** Not enough gas: the meter raises and nothing else is done. *)
Example ecmul_out_of_gas :
  Bn128.precompile_ecmul (call 100 1 2 2) =
  Raised (VMError "OutOfGas" "ECMUL Precompile") (call 100 1 2 2).
Proof. vm_compute. reflexivity. Qed.

(** The generator and no scalar: the point is validated and multiplied by
    zero. *)
Lemma _ecmull_short_input_witness :
  let data := to_bytes_be 32 1 ++ to_bytes_be 32 2 in
  length data = 64%nat /\
  Ecmul._ecmull Bn128.validate_point Bn128.multiply Bn128.normalize data =
    match Bn128.validate_point 1 2 with
    | inl e => inl e
    | inr p => inr (Bn128.normalize (Bn128.multiply p 0))
    end.
Proof.
  split; [reflexivity|].
  refine (proj1 (_ecmull_short_input Bn128.validate_point Bn128.multiply
                   Bn128.normalize (to_bytes_be 32 1 ++ to_bytes_be 32 2) _)).
  vm_compute. constructor.
Defined.

End EcmulFacts.

Close Scope Z_scope.

(** ** Cancel tokens *)

Module TokenFacts.
Import Token.

Lemma triggered_reach σ t :
  triggered σ t = existsb (own σ) (reach t).
Proof.
  induction t as [n b c IH] using CancelToken_rect'. cbn [triggered reach existsb].
  f_equal. induction IH as [|x l Hx _ IHl]; [done|].
  cbn [existsb flat_map]. by rewrite existsb_app, Hx, IHl.
Qed.

(** A token is triggered exactly when some token of its chain, at whatever
    depth, has its own bit set. *)
Lemma triggered_iff σ t :
  triggered σ t = true <-> exists i, i ∈ reach t /\ σ !! i = Some true.
Proof.
  rewrite triggered_reach, existsb_exists. split.
  - intros (i & Hi & Hown). exists i. split; [by apply list_elem_of_In|].
    unfold own in Hown. by destruct (σ !! i) as [[]|].
  - intros (i & Hi & Hown). exists i. split; [by apply list_elem_of_In|].
    unfold own. by rewrite Hown.
Qed.

(** Only the bits a token observes matter to it. *)
Lemma triggered_ext σ σ' t :
  (forall i, i ∈ reach t -> own σ' i = own σ i) ->
  triggered σ' t = triggered σ t.
Proof.
  intros H. rewrite !triggered_reach.
  induction (reach t) as [|i l IH]; [done|]. cbn [existsb].
  rewrite H, IH; [done| |by constructor].
  intros j Hj. apply H. by constructor.
Qed.

Lemma own_app_l σ τ i : i < length σ -> own (σ ++ τ) i = own σ i.
Proof. intros H. unfold own. by rewrite lookup_app_l. Qed.

Lemma own_fresh σ : own (σ ++ [false]) (length σ) = false.
Proof. unfold own. by rewrite list_lookup_middle. Qed.

Lemma own_trigger_same σ t : bit t < length σ -> own (trigger t σ) (bit t) = true.
Proof. intros H. unfold own, trigger. by rewrite list_lookup_insert_eq. Qed.

Lemma own_trigger_other σ t i : i <> bit t -> own (trigger t σ) i = own σ i.
Proof. intros H. unfold own, trigger. by rewrite list_lookup_insert_ne. Qed.

(** The bit is monotonic: triggering never clears anything. *)
Lemma own_trigger_mono σ t i : own σ i = true -> own (trigger t σ) i = true.
Proof.
  intros H. destruct (decide (i = bit t)) as [->|Hne].
  - apply own_trigger_same. unfold own in H.
    destruct (σ !! bit t) eqn:E; [|done]. by apply lookup_lt_Some in E.
  - by rewrite own_trigger_other.
Qed.

Lemma length_trigger σ t : length (trigger t σ) = length σ.
Proof. apply length_insert. Qed.

Lemma allocated_weaken σ τ t : allocated σ t -> allocated (σ ++ τ) t.
Proof.
  unfold allocated. intros H. eapply Forall_impl; [exact H|].
  intros i Hi. simpl in *. rewrite length_app. lia.
Qed.

Lemma allocated_trigger σ t t' : allocated σ t -> allocated (trigger t' σ) t.
Proof. unfold allocated. by rewrite length_trigger. Qed.

Lemma triggered_weaken σ τ t :
  allocated σ t -> triggered (σ ++ τ) t = triggered σ t.
Proof.
  intros H. apply triggered_ext. intros i Hi. apply own_app_l.
  unfold allocated in H. rewrite Forall_forall in H. by apply H.
Qed.

Lemma triggered_trigger σ t : allocated σ t -> triggered (trigger t σ) t = true.
Proof.
  intros H. destruct t as [n b c]. cbn [triggered].
  pose proof (own_trigger_same σ (Tok n b c)) as Hown. cbn [bit] in Hown.
  rewrite Hown; [done|].
  unfold allocated in H. cbn [reach] in H. by apply Forall_cons_1 in H as [? _].
Qed.

Lemma triggered_trigger_mono σ t t' :
  triggered σ t = true -> triggered (trigger t' σ) t = true.
Proof.
  rewrite !triggered_reach, !existsb_exists.
  intros (i & Hi & Hown). exists i. split; [done|]. by apply own_trigger_mono.
Qed.

Lemma triggered_trigger_other σ t t' :
  bit t' ∉ reach t -> triggered (trigger t' σ) t = triggered σ t.
Proof.
  intros H. apply triggered_ext. intros i Hi. apply own_trigger_other.
  intros ->. done.
Qed.

Lemma allocated_new n σ : allocated (new n σ).2 (new n σ).1.
Proof.
  unfold allocated, new. cbn. constructor; [|done].
  rewrite length_app. simpl. lia.
Qed.

Lemma allocated_chain a b σ :
  allocated σ a -> allocated σ b -> allocated (chain a b σ).2 (chain a b σ).1.
Proof.
  intros Ha Hb. unfold allocated, chain. cbn [fst snd reach flat_map].
  rewrite app_nil_r. constructor; [rewrite length_app; simpl; lia|].
  apply Forall_app. split; by apply allocated_weaken.
Qed.

Lemma triggered_chain a b σ :
  allocated σ a -> allocated σ b ->
  triggered (chain a b σ).2 (chain a b σ).1 = triggered σ a || triggered σ b.
Proof.
  intros Ha Hb. unfold chain. cbn [fst snd triggered existsb].
  rewrite own_fresh, !triggered_weaken by done.
  by rewrite orb_false_r.
Qed.

Lemma descend_spec depth parent σ :
  allocated σ parent ->
  let leaf := (descend depth parent σ).1 in
  let σ' := (descend depth parent σ).2 in
  allocated σ' leaf /\
  length σ <= length σ' /\
  (forall i, i < length σ -> own σ' i = own σ i) /\
  (forall i, i ∈ reach parent -> i ∈ reach leaf) /\
  triggered σ' leaf = triggered σ parent.
Proof.
  revert parent σ. induction depth as [|d IH]; intros parent σ Hp; cbn [descend].
  - cbn [fst snd]. done.
  - destruct (new "Service" σ) as [base σ1] eqn:Hnew.
    destruct (chain base parent σ1) as [token σ2] eqn:Hchain.
    assert (allocated σ1 base) as Hbase.
    { pose proof (allocated_new "Service" σ) as H. by rewrite Hnew in H. }
    assert (σ1 = σ ++ [false]) as Hσ1 by (by injection Hnew).
    assert (allocated σ1 parent) as Hp1.
    { rewrite Hσ1. by apply allocated_weaken. }
    assert (allocated σ2 token) as Htoken.
    { pose proof (allocated_chain base parent σ1 Hbase Hp1) as H.
      by rewrite Hchain in H. }
    assert (σ2 = σ1 ++ [false]) as Hσ2 by (by injection Hchain).
    destruct (IH token σ2 Htoken) as (Hleaf & Hlen & Hown & Hin & Htrig).
    assert (length σ2 = S (S (length σ))) as Hlen2.
    { rewrite Hσ2, Hσ1, !length_app. simpl. lia. }
    split; [done|]. split; [lia|]. split; [|split].
    + intros i Hi. rewrite Hown by lia.
      rewrite Hσ2, Hσ1, <- app_assoc. by apply own_app_l.
    + intros i Hi. apply Hin.
      injection Hchain as <- _. cbn [reach flat_map]. rewrite app_nil_r.
      apply elem_of_cons. right. apply elem_of_app. by right.
    + rewrite Htrig.
      pose proof (triggered_chain base parent σ1 Hbase Hp1) as H.
      rewrite Hchain in H. cbn [fst snd] in H. rewrite H.
      rewrite Hσ1, (triggered_weaken σ [false] parent) by done.
      assert (triggered (σ ++ [false]) base = false) as ->; [|done].
      injection Hnew as <- _. cbn. rewrite own_fresh. done.
Qed.

(** Setting bits never clears a token. *)
Lemma triggered_mono σ σ' t :
  (forall i, own σ i = true -> own σ' i = true) ->
  triggered σ t = true -> triggered σ' t = true.
Proof.
  intros H. rewrite !triggered_reach, !existsb_exists.
  intros (i & Hi & Ho). exists i. auto.
Qed.

Lemma bit_in_reach t : bit t ∈ reach t.
Proof. destruct t. cbn. by constructor. Qed.

Lemma allocated_bit σ t : allocated σ t -> bit t < length σ.
Proof.
  intros H. unfold allocated in H. rewrite Forall_forall in H.
  apply H, bit_in_reach.
Qed.

(** Triggering a token shows in every token that observes its bit. *)
Lemma triggered_trigger_reach σ t t' :
  bit t' < length σ -> bit t' ∈ reach t -> triggered (trigger t' σ) t = true.
Proof.
  intros Hlen Hin. apply triggered_iff. exists (bit t'). split; [done|].
  unfold trigger. by apply list_lookup_insert_eq.
Qed.

(** C9, as amended.  For tokens [a] and [b] of the store, [c = a.chain(b)]
    is a token of its own: in every state it is triggered exactly when it
    was triggered itself or [a] or [b] is.  So it is triggered exactly when
    [a] or [b] is when it is made, and for as long as it is not triggered
    itself; triggering [c] triggers neither [a] nor [b].  Making [c] changes
    no bit of the store, so neither [a] nor [b].  Triggering [a] alone makes
    [c] triggered, leaves the own bit of another token [b] as it was, and
    leaves [b] as triggered as it was unless [a] is part of the chain of
    [b].  Chains compose to any depth: a token [depth] levels under [c] is
    triggered whenever [a] or [b] is. *)
Theorem chaining_law (a b : CancelToken) (σ : bits) :
  allocated σ a -> allocated σ b ->
  let c := (chain a b σ).1 in
  let σ' := (chain a b σ).2 in
  (* the law, in every state and when [c] is made *)
  (forall τ, triggered τ c = own τ (bit c) || (triggered τ a || triggered τ b)) /\
  own σ' (bit c) = false /\
  triggered σ' c = triggered σ a || triggered σ b /\
  (* [chain] mutates nothing *)
  (forall i, i < length σ -> own σ' i = own σ i) /\
  triggered σ' a = triggered σ a /\
  triggered σ' b = triggered σ b /\
  (* triggering [c] itself *)
  triggered (trigger c σ') c = true /\
  triggered (trigger c σ') a = triggered σ a /\
  triggered (trigger c σ') b = triggered σ b /\
  (* triggering [a] alone *)
  triggered (trigger a σ') c = true /\
  (bit b <> bit a -> own (trigger a σ') (bit b) = own σ (bit b)) /\
  (bit a ∉ reach b -> triggered (trigger a σ') b = triggered σ b) /\
  (* any depth *)
  (forall depth,
     let leaf := (descend depth c σ').1 in
     let τ := (descend depth c σ').2 in
     triggered τ leaf = triggered σ a || triggered σ b /\
     triggered (trigger a τ) leaf = true /\
     triggered (trigger b τ) leaf = true /\
     (forall ρ, triggered ρ a || triggered ρ b = true ->
                triggered ρ leaf = true)).
Proof.
  intros Ha Hb c σ'.
  assert (allocated σ' c) as Hc by (by apply allocated_chain).
  assert (reach c = bit c :: reach a ++ reach b) as Hreach.
  { cbn. by rewrite app_nil_r. }
  assert (triggered σ' c = triggered σ a || triggered σ b) as Hor
    by (by apply triggered_chain).
  assert (forall t, allocated σ t -> bit c ∉ reach t) as Hfresh.
  { intros t Ht Hin. unfold allocated in Ht. rewrite Forall_forall in Ht.
    apply Ht in Hin. cbn in Hin. lia. }
  repeat apply conj.
  - intros τ. cbn [c chain fst triggered existsb bit]. by rewrite orb_false_r.
  - cbn. apply own_fresh.
  - done.
  - intros i Hi. by apply own_app_l.
  - by apply triggered_weaken.
  - by apply triggered_weaken.
  - by apply triggered_trigger.
  - rewrite triggered_trigger_other by (by apply Hfresh).
    by apply triggered_weaken.
  - rewrite triggered_trigger_other by (by apply Hfresh).
    by apply triggered_weaken.
  - apply triggered_trigger_reach.
    + apply allocated_bit. by apply allocated_weaken.
    + rewrite Hreach. apply elem_of_cons. right. apply elem_of_app. left.
      apply bit_in_reach.
  - intros Hne. rewrite own_trigger_other by done.
    apply own_app_l. by apply allocated_bit.
  - intros Hnot. rewrite triggered_trigger_other by done.
    by apply triggered_weaken.
  - intros depth leaf τ.
    destruct (descend_spec depth c σ' Hc) as (Hleaf & Hlen & Hown & Hin & Htrig).
    fold leaf τ in Hleaf, Hlen, Hown, Hin, Htrig.
    split; [by rewrite Htrig|].
    assert (length σ < length σ') as Hσ'.
    { unfold σ', chain. cbn [snd]. rewrite length_app. simpl. lia. }
    split; [|split].
    + apply triggered_trigger_reach.
      * apply allocated_bit in Ha. lia.
      * apply Hin. rewrite Hreach. apply elem_of_cons. right.
        apply elem_of_app. left. apply bit_in_reach.
    + apply triggered_trigger_reach.
      * apply allocated_bit in Hb. lia.
      * apply Hin. rewrite Hreach. apply elem_of_cons. right.
        apply elem_of_app. right. apply bit_in_reach.
    + intros ρ Hab. apply triggered_iff.
      apply orb_prop in Hab as [H|H]; apply triggered_iff in H as (i & Hi & Hρ);
        exists i; (split; [|exact Hρ]); apply Hin; rewrite Hreach;
        apply elem_of_cons; right; apply elem_of_app; [by left|by right].
Qed.

(** Two tokens made one after the other, chained, the first triggered. *)
Lemma chaining_law_witness :
  let a := Tok "a" 0 [] in
  let b := Tok "b" 1 [] in
  let σ := [false; false] in
  triggered (trigger a (chain a b σ).2) (chain a b σ).1 = true /\
  triggered (trigger a (chain a b σ).2) b = false.
Proof.
  intros a b σ.
  assert (allocated σ a) as Ha by (repeat constructor).
  assert (allocated σ b) as Hb by (repeat constructor).
  pose proof (chaining_law a b σ Ha Hb) as H. cbv zeta in H.
  destruct H as (_ & _ & _ & _ & _ & _ & _ & _ & _ & Hc & _ & Hb' & _).
  split; [exact Hc|]. apply Hb'. cbn.
  intros H. apply elem_of_cons in H as [H|H]; [discriminate|].
  by apply elem_of_nil in H.
Defined.

End TokenFacts.


(** ** Services *)

Module ServiceFacts.
Import Token TokenFacts Service.

(** *** The objects after an update *)

Lemma service_set_run_lock w s b :
  s < length (services w) ->
  service (set_run_lock s b w) s =
  {| class_name := class_name (service w s); _run_lock := b;
     cleaned_up := cleaned_up (service w s);
     cancel_token := cancel_token (service w s);
     own_child_services := own_child_services (service w s) |}.
Proof.
  intros Hs. unfold service, set_run_lock, with_services. cbn [services].
  rewrite list_lookup_alter_eq.
  destruct (services w !! s) as [o|] eqn:E; [reflexivity|].
  apply lookup_ge_None in E. lia.
Qed.

Lemma service_set_run_lock_ne w s s' b :
  s <> s' -> service (set_run_lock s b w) s' = service w s'.
Proof.
  intros Hne. unfold service, set_run_lock, with_services. cbn [services].
  by rewrite list_lookup_alter_ne.
Qed.

Lemma cancel_token_set_run_lock w s s' b :
  cancel_token (service (set_run_lock s b w) s') = cancel_token (service w s').
Proof.
  destruct (decide (s = s')) as [<-|Hne]; [|by rewrite service_set_run_lock_ne].
  unfold service, set_run_lock, with_services. cbn [services].
  rewrite list_lookup_alter_eq. by destruct (services w !! s).
Qed.

Lemma is_running_set_run_lock w s b :
  s < length (services w) -> is_running (set_run_lock s b w) s = b.
Proof. intros Hs. unfold is_running. by rewrite service_set_run_lock. Qed.

Lemma service_set_cleaned_up w s :
  s < length (services w) -> cleaned_up (service (set_cleaned_up s w) s) = true.
Proof.
  intros Hs. unfold service, set_cleaned_up, with_services. cbn [services].
  rewrite list_lookup_alter_eq.
  destruct (services w !! s) as [o|] eqn:E; [reflexivity|].
  apply lookup_ge_None in E. lia.
Qed.

(** *** What updates leave alone *)

Lemma service_set_cleaned_up_ne w s s' :
  s <> s' -> service (set_cleaned_up s w) s' = service w s'.
Proof.
  intros Hne. unfold service, set_cleaned_up, with_services. cbn [services].
  by rewrite list_lookup_alter_ne.
Qed.

Lemma cancel_token_set_cleaned_up w s s' :
  cancel_token (service (set_cleaned_up s w) s') = cancel_token (service w s').
Proof.
  destruct (decide (s = s')) as [<-|Hne]; [|by rewrite service_set_cleaned_up_ne].
  unfold service, set_cleaned_up, with_services. cbn [services].
  rewrite list_lookup_alter_eq. by destruct (services w !! s).
Qed.

Lemma is_running_set_cleaned_up w s s' :
  is_running (set_cleaned_up s w) s' = is_running w s'.
Proof.
  unfold is_running.
  destruct (decide (s = s')) as [<-|Hne]; [|by rewrite service_set_cleaned_up_ne].
  unfold service, set_cleaned_up, with_services. cbn [services].
  rewrite list_lookup_alter_eq. by destruct (services w !! s).
Qed.

Lemma cleaned_up_set_cleaned_up_mono w s s' :
  cleaned_up (service w s') = true ->
  cleaned_up (service (set_cleaned_up s w) s') = true.
Proof.
  intros H.
  destruct (decide (s = s')) as [<-|Hne]; [|by rewrite service_set_cleaned_up_ne].
  unfold service, set_cleaned_up, with_services in *. cbn [services].
  rewrite list_lookup_alter_eq. by destruct (services w !! s).
Qed.

Lemma cleaned_up_set_run_lock w s s' b :
  cleaned_up (service (set_run_lock s b w) s') = cleaned_up (service w s').
Proof.
  destruct (decide (s = s')) as [<-|Hne]; [|by rewrite service_set_run_lock_ne].
  unfold service, set_run_lock, with_services. cbn [services].
  rewrite list_lookup_alter_eq. by destruct (services w !! s).
Qed.

Lemma length_services_set_run_lock w s b :
  length (services (set_run_lock s b w)) = length (services w).
Proof. unfold set_run_lock, with_services. cbn. apply length_alter. Qed.

Lemma length_services_set_cleaned_up w s :
  length (services (set_cleaned_up s w)) = length (services w).
Proof. unfold set_cleaned_up, with_services. cbn. apply length_alter. Qed.

Lemma child_services_set_run_lock w s s' b :
  child_services (set_run_lock s b w) s' = child_services w s'.
Proof.
  unfold child_services, child_services_loc. cbn [set_run_lock with_services list_objects].
  destruct (decide (s = s')) as [<-|Hne]; [|by rewrite service_set_run_lock_ne].
  unfold service, set_run_lock, with_services. cbn [services].
  rewrite list_lookup_alter_eq. by destruct (services w !! s).
Qed.

Lemma child_services_set_cleaned_up w s s' :
  child_services (set_cleaned_up s w) s' = child_services w s'.
Proof.
  unfold child_services, child_services_loc.
  cbn [set_cleaned_up with_services list_objects].
  destruct (decide (s = s')) as [<-|Hne]; [|by rewrite service_set_cleaned_up_ne].
  unfold service, set_cleaned_up, with_services. cbn [services].
  rewrite list_lookup_alter_eq. by destruct (services w !! s).
Qed.

(** *** Time and the trace only go forward *)

Definition advances (st st' : St) : Prop :=
  trace st `prefix_of` trace st' /\ clock st <= clock st'.

Definition steady {A} (m : M A) : Prop :=
  forall st, advances st (state_of (m st)).

Create HintDb steady.

Lemma advances_refl st : advances st st.
Proof. split; [done|lia]. Qed.

Lemma advances_trans st1 st2 st3 :
  advances st1 st2 -> advances st2 st3 -> advances st1 st3.
Proof. intros [H1 H1'] [H2 H2']. split; [by etrans|lia]. Qed.

Lemma advances_emit st t e :
  clock st <= t ->
  advances st {| world := world st; clock := t; trace := trace st ++ [e] |}.
Proof. intros H. split; [by apply prefix_app_r|done]. Qed.

Lemma steady_ret {A} (a : A) : steady (mret a).
Proof. intros st. apply advances_refl. Qed.

Lemma steady_raise {A} e : steady (@raise A e).
Proof. intros st. apply advances_refl. Qed.

Lemma steady_gets {A} (f : World -> A) : steady (gets f).
Proof. intros st. apply advances_refl. Qed.

Lemma steady_modify f : steady (modify f).
Proof. intros st. split; simpl; [done|lia]. Qed.

Lemma steady_emit e : steady (emit e).
Proof. intros st. split; [by apply prefix_app_r|done]. Qed.

Lemma steady_log lv s text : steady (log lv s text).
Proof. apply steady_emit. Qed.

Lemma steady_bind {A B} (m : M A) (k : A -> M B) :
  steady m -> (forall a, steady (k a)) -> steady (m ≫= k).
Proof.
  intros Hm Hk st. specialize (Hm st).
  unfold mbind, M_bind. destruct (m st) as [a st'|e st'|st']; [|done..].
  eapply advances_trans; [exact Hm|apply Hk].
Qed.

Lemma steady_try_except {A} (body : M A) handlers :
  steady body -> (forall e h, handlers e = Some h -> steady h) ->
  steady (try_except body handlers).
Proof.
  intros Hb Hh st. specialize (Hb st). unfold try_except.
  destruct (body st) as [a st'|e st'|st']; [done| |done].
  destruct (handlers e) as [h|] eqn:E; [|done].
  eapply advances_trans; [exact Hb|by eapply Hh].
Qed.

Lemma steady_try_except_else body handlers orelse :
  steady body -> (forall e h, handlers e = Some h -> steady h) ->
  steady orelse -> steady (try_except_else body handlers orelse).
Proof.
  intros Hb Hh Ho st. specialize (Hb st). unfold try_except_else.
  destruct (body st) as [a st'|e st'|st']; [| |done].
  - eapply advances_trans; [exact Hb|apply Ho].
  - destruct (handlers e) as [h|] eqn:E; [|done].
    eapply advances_trans; [exact Hb|by eapply Hh].
Qed.

Lemma steady_try_finally {A} (body : M A) final :
  steady body -> steady final -> steady (try_finally body final).
Proof.
  intros Hb Hf st. specialize (Hb st). unfold try_finally.
  destruct (body st) as [a st'|e st'|st']; [| |done].
  all: specialize (Hf st'); destruct (final st') as [[] st''|e' st''|st''].
  all: by eapply advances_trans.
Qed.

#[local] Hint Resolve steady_ret steady_raise steady_gets steady_modify
  steady_emit steady_log steady_bind steady_try_except steady_try_finally
  steady_try_except_else : steady.

Section Facts.

Variable env : Env.

Lemma steady_await_method entered left body :
  steady (await_method entered left body).
Proof.
  intros st. unfold await_method.
  destruct (body (world st)) as [|after [e|] w]; cbn [state_of].
  - split; simpl; [by apply prefix_app_r|lia].
  - split; simpl; [rewrite <- app_assoc; by apply prefix_app_r|lia].
  - split; simpl; [rewrite <- app_assoc; by apply prefix_app_r|lia].
Qed.

Lemma steady_acquire s : steady (acquire s).
Proof.
  intros st. unfold acquire. destruct (is_running (world st) s).
  - apply advances_refl.
  - split; simpl; [by apply prefix_app_r|lia].
Qed.

Lemma steady_release s : steady (release s).
Proof. unfold release. eauto with steady. Qed.

Lemma steady_async_with_run_lock {A} s (body : M A) :
  steady body -> steady (async_with_run_lock s body).
Proof.
  intros H. unfold async_with_run_lock.
  apply steady_bind; [apply steady_acquire|intros _].
  apply steady_try_finally; [done|apply steady_release].
Qed.

Lemma steady_token_trigger t : steady (token_trigger t).
Proof. unfold token_trigger. eauto with steady. Qed.

Lemma advances_resolve t c st : advances st (resolve t c st).
Proof. split; simpl; [by apply prefix_app_r|lia]. Qed.

Lemma advances_settle limit start waits st :
  advances st (settle env limit start waits st).
Proof.
  revert st. induction waits as [|c rest IH]; intros st; cbn [settle].
  - apply advances_refl.
  - eapply advances_trans; [|apply IH].
    destruct (resolves_at env start c) as [t|]; [|apply advances_refl].
    destruct (default true _); [apply advances_resolve|apply advances_refl].
Qed.

Lemma steady_await_cleaned_up c : steady (await_cleaned_up env c).
Proof.
  intros st. unfold await_cleaned_up.
  destruct (resolves_at env st c) as [t|]; [|apply advances_refl].
  split; simpl; [by apply prefix_app_r|lia].
Qed.

Lemma steady_gather waits body : steady body -> steady (gather env waits body).
Proof.
  intros Hb st. specialize (Hb st). unfold gather.
  destruct (body st) as [a st'|e st'|st']; cbn [state_of] in *.
  - destruct (all_resolve env st waits); cbn [state_of];
      (eapply advances_trans; [exact Hb|apply advances_settle]).
  - eapply advances_trans; [exact Hb|apply advances_settle].
  - eapply advances_trans; [exact Hb|apply advances_settle].
Qed.

Lemma steady_wait_for {A} (aw : M A) timeout :
  steady aw -> steady (wait_for env aw timeout).
Proof.
  intros Ha st. specialize (Ha st). unfold wait_for.
  assert (advances st
            {| world := caught_up env (clock st + timeout) (world st);
               clock := clock st + timeout;
               trace := trace st ++
                 [(clock st + timeout, Abandoned (Awaited 0))] |}) as Hexp.
  { split; simpl; [by apply prefix_app_r|lia]. }
  destruct (aw st) as [a st'|e st'|st']; [| |done].
  all: by destruct (bool_decide _).
Qed.

Lemma steady_cleanup s : steady (cleanup env s).
Proof.
  unfold cleanup.
  apply steady_bind; [apply steady_gets|intros children].
  apply steady_bind; [|intros _; eauto with steady].
  apply steady_gather, steady_await_method.
Qed.

Lemma steady_call_back f s : steady (call_back f s).
Proof.
  intros st. unfold call_back. destruct (f s (world st)) as [w [e|]].
  all: split; simpl; [by apply prefix_app_r|lia].
Qed.

#[local] Hint Resolve steady_await_method steady_acquire steady_release
  steady_async_with_run_lock steady_token_trigger steady_await_cleaned_up
  steady_gather steady_wait_for steady_cleanup steady_call_back : steady.

Lemma steady_run s finished_callback : steady (run env s finished_callback).
Proof.
  unfold run.
  apply steady_bind; [apply steady_gets|intros [|]; [apply steady_raise|]].
  apply steady_bind; [apply steady_gets|intros [|]; [apply steady_raise|]].
  apply steady_try_finally.
  - apply steady_try_except; [eauto with steady|].
    intros e h Hh.
    destruct e; cbn in Hh; try discriminate; injection Hh as <-;
      apply steady_log.
  - apply steady_bind; [apply steady_gets|intros token].
    apply steady_bind; [apply steady_token_trigger|intros _].
    apply steady_bind; [apply steady_cleanup|intros _].
    destruct finished_callback; eauto with steady.
Qed.

Lemma steady_cancel s : steady (cancel env s).
Proof.
  unfold cancel.
  apply steady_bind; [apply steady_gets|intros [|]; [apply steady_log|]].
  apply steady_bind; [apply steady_gets|intros [|]; [|apply steady_raise]].
  cbn [negb].
  apply steady_bind; [apply steady_log|intros _].
  apply steady_bind; [apply steady_gets|intros token].
  apply steady_bind; [apply steady_token_trigger|intros _].
  apply steady_try_except_else; [eauto with steady| |apply steady_log].
  intros e h Hh. destruct e; try discriminate. injection Hh as <-.
  apply steady_log.
Qed.

(** *** [run] *)

(** The [finally] block of [run]. *)
Definition run_finally (s : sid) (finished_callback : option Callback)
  : M unit :=
  token ← gets (fun w => cancel_token (service w s));
  token_trigger token ;;
  cleanup env s ;;
  match finished_callback with
  | Some finished_callback => call_back finished_callback s
  | None => mret ()
  end.

Lemma steady_run_finally s cb : steady (run_finally s cb).
Proof.
  unfold run_finally.
  apply steady_bind; [apply steady_gets|intros token].
  apply steady_bind; [apply steady_token_trigger|intros _].
  apply steady_bind; [apply steady_cleanup|intros _].
  destruct cb; eauto with steady.
Qed.

Lemma outcome_unit_eta (o : Outcome unit) :
  match o with
  | Returned _ st => Returned () st
  | Raised e st => Raised e st
  | Blocked st => Blocked st
  end = o.
Proof. by destruct o as [[] ?| |]. Qed.

Ltac step_monad :=
  unfold mbind, M_bind, mret, M_ret, log;
  unfold gets, modify, emit, raise;
  cbn [world clock trace].

Lemma run_while_running s cb st :
  is_running (world st) s = true ->
  run env s cb st =
  Raised (RuntimeError "Cannot start the service while it's already running")
    st.
Proof.
  intros H. unfold run. unfold mbind at 1, M_bind at 1, gets at 1.
  by rewrite H.
Qed.

Lemma run_after_trigger s cb st :
  is_running (world st) s = false ->
  triggered (token_bits (world st)) (cancel_token (service (world st) s))
    = true ->
  run env s cb st =
  Raised (RuntimeError
            "Cannot restart a service that has already been cancelled") st.
Proof.
  intros H1 H2. unfold run. unfold mbind at 1, M_bind at 1, gets at 1.
  rewrite H1. unfold mbind at 1, M_bind at 1, gets at 1. by rewrite H2.
Qed.

Lemma run_work_never s cb st :
  is_running (world st) s = false ->
  triggered (token_bits (world st)) (cancel_token (service (world st) s))
    = false ->
  _run (methods env s) (set_run_lock s true (world st)) = Never ->
  run env s cb st =
  Blocked {| world := set_run_lock s true (world st); clock := clock st;
             trace := trace st ++
               [(clock st, Acquired s); (clock st, RunEntered s)] |}.
Proof.
  intros Hrun Htrig Hwork.
  unfold run. unfold mbind at 1, M_bind at 1, gets at 1. rewrite Hrun.
  unfold mbind at 1, M_bind at 1, gets at 1. rewrite Htrig.
  unfold try_finally, try_except, async_with_run_lock, try_finally.
  unfold mbind at 1, M_bind at 1. unfold acquire. rewrite Hrun.
  step_monad. unfold await_method. cbn [world clock trace]. rewrite Hwork.
  by rewrite <- app_assoc.
Qed.

Lemma run_work_finishes s cb st after raised w :
  is_running (world st) s = false ->
  triggered (token_bits (world st)) (cancel_token (service (world st) s))
    = false ->
  _run (methods env s) (set_run_lock s true (world st))
    = Finishes after raised w ->
  run env s cb st =
  reraised (unhandled raised) (run_finally s cb (run_left s st after raised w)).
Proof.
  intros Hrun Htrig Hwork.
  unfold run. unfold mbind at 1, M_bind at 1, gets at 1. rewrite Hrun.
  unfold mbind at 1, M_bind at 1, gets at 1. rewrite Htrig.
  fold (run_finally s cb).
  unfold try_finally, try_except, async_with_run_lock, try_finally.
  unfold mbind at 1, M_bind at 1. unfold acquire. rewrite Hrun.
  step_monad. unfold await_method. cbn [world clock trace]. rewrite Hwork.
  unfold release, run_left. step_monad.
  destruct raised as [[]|];
    cbn [world clock trace handled unhandled is_Exception fmap list_fmap].
  all: rewrite <- ?app_assoc; cbn [app].
  all: unfold reraised.
  all: try apply outcome_unit_eta.
  by destruct (run_finally s cb _).
Qed.

Lemma state_of_reraised pending o : state_of (reraised pending o) = state_of o.
Proof. by destruct pending, o. Qed.

Lemma reraised_None o : reraised None o = o.
Proof. done. Qed.

Lemma run_finally_unfold s cb st :
  run_finally s cb st =
  match cleanup env s (own_token_triggered s st) with
  | Returned _ st' =>
    match cb with
    | Some f => call_back f s st'
    | None => Returned () st'
    end
  | Raised e st' => Raised e st'
  | Blocked st' => Blocked st'
  end.
Proof.
  unfold run_finally, token_trigger, own_token_triggered. step_monad.
  by destruct cb.
Qed.

(** *** [cleanup] *)

(** The waits that [settle] records, as events. *)
Fixpoint resolutions (limit : option nat) (start : St) (waits : list sid)
  : list (nat * event) :=
  match waits with
  | [] => []
  | c :: rest =>
    match resolves_at env start c with
    | Some t =>
      if default true ((fun l => bool_decide (t ≤ l)) <$> limit)
      then (t, Resolved c) :: resolutions limit start rest
      else resolutions limit start rest
    | None => resolutions limit start rest
    end
  end.

Lemma settle_trace limit start waits st :
  trace (settle env limit start waits st) =
  trace st ++ resolutions limit start waits.
Proof.
  revert st. induction waits as [|c rest IH]; intros st; cbn [settle resolutions].
  - by rewrite app_nil_r.
  - destruct (resolves_at env start c) as [t|]; [|apply IH].
    destruct (default true _); [|apply IH].
    rewrite IH. cbn [resolve trace]. by rewrite <- app_assoc.
Qed.

Lemma settle_resolved start waits st c t :
  c ∈ waits -> resolves_at env start c = Some t ->
  (t, Resolved c) ∈ resolutions None start waits /\
  t <= clock (settle env None start waits st).
Proof.
  revert st. induction waits as [|c' rest IH]; intros st Hc Ht.
  - by apply elem_of_nil in Hc.
  - cbn [settle resolutions]. apply elem_of_cons in Hc as [<-|Hc].
    + rewrite Ht. cbn [default fmap option_fmap option_map].
      split; [by constructor|].
      pose proof (advances_settle None start rest (resolve t c st)) as [_ H].
      cbn [resolve clock] in H. lia.
    + destruct (IH (match resolves_at env start c' with
                    | Some t' => resolve t' c' st
                    | None => st
                    end) Hc Ht) as [Hin Hle].
      destruct (resolves_at env start c') as [t'|]; [|done].
      cbn [default fmap option_fmap option_map].
      split; [by constructor|done].
Qed.

Lemma resolutions_resolved limit start waits e :
  e ∈ resolutions limit start waits -> exists c, e.2 = Resolved c.
Proof.
  induction waits as [|c rest IH]; cbn [resolutions].
  - by intros ?%elem_of_nil.
  - destruct (resolves_at env start c) as [t|]; [|done].
    destruct (default true _); [|done].
    intros [->|?]%elem_of_cons; [by exists c|by apply IH].
Qed.

Lemma filter_none {A} (P : A -> Prop) `{forall x, Decision (P x)} (l : list A) :
  (forall x, x ∈ l -> ~ P x) -> filter P l = [].
Proof.
  induction l as [|x l IH]; intros Hl; [done|].
  rewrite filter_cons. destruct (decide (P x)) as [Hx|_].
  - exfalso. eapply Hl; [by constructor|done].
  - apply IH. intros y Hy. apply Hl. by constructor.
Qed.

Lemma filter_set_resolutions s limit start waits :
  filter (fun e => e.2 = CleanedUpSet s) (resolutions limit start waits) = [].
Proof.
  apply filter_none. intros e He Hset.
  apply resolutions_resolved in He as [c Hc]. congruence.
Qed.

Lemma all_resolve_Forall start waits :
  all_resolve env start waits = true <->
  Forall (fun c => is_Some (resolves_at env start c)) waits.
Proof.
  unfold all_resolve. rewrite forallb_forall, Forall_forall.
  split; intros H c Hc.
  - apply list_elem_of_In, H in Hc. by apply bool_decide_eq_true in Hc.
  - apply bool_decide_eq_true, H. by apply list_elem_of_In.
Qed.

Lemma cleanup_unfold s st :
  cleanup env s st =
  let children := child_services (world st) s in
  let entered := trace st ++ [(clock st, CleanupEntered s)] in
  match _cleanup (methods env s) (world st) with
  | Never =>
    Blocked (settle env None st children
               {| world := world st; clock := clock st; trace := entered |})
  | Finishes after raised w =>
    let left :=
      {| world := w; clock := clock st + after;
         trace := entered ++ [(clock st + after, CleanupLeft s)] |} in
    match raised with
    | Some e => Raised e (settle env (Some (clock st + after)) st children left)
    | None =>
      let done := settle env None st children left in
      if all_resolve env st children then
        Returned ()
          {| world := set_cleaned_up s (world done); clock := clock done;
             trace := trace done ++ [(clock done, CleanedUpSet s)] |}
      else Blocked done
    end
  end.
Proof.
  unfold cleanup. unfold mbind at 1, M_bind at 1, gets at 1.
  unfold mbind at 1, M_bind at 1. unfold gather, await_method.
  destruct (_cleanup (methods env s) (world st)) as [|after [e|] w]; [done..|].
  cbv zeta. destruct (all_resolve env st _); [|done].
  by step_monad.
Qed.

(** When [cleanup] returns, setting [cleaned_up] was its last step. *)
Lemma cleanup_returned s st st' :
  cleanup env s st = Returned () st' ->
  exists done,
    st' = {| world := set_cleaned_up s (world done); clock := clock done;
             trace := trace done ++ [(clock done, CleanedUpSet s)] |}.
Proof.
  rewrite cleanup_unfold. cbv zeta.
  destruct (_cleanup (methods env s) (world st)) as [|after [e|] w]; [done..|].
  destruct (all_resolve env st _); [|done].
  intros [= <-]. by eexists.
Qed.

(** The events [cleanup] adds, by the way the teardown ends. *)
Lemma cleanup_added s st :
  let children := child_services (world st) s in
  added st (cleanup env s st) =
  match _cleanup (methods env s) (world st) with
  | Never => (clock st, CleanupEntered s) :: resolutions None st children
  | Finishes after (Some _) _ =>
    (clock st, CleanupEntered s) :: (clock st + after, CleanupLeft s) ::
    resolutions (Some (clock st + after)) st children
  | Finishes after None w =>
    (clock st, CleanupEntered s) :: (clock st + after, CleanupLeft s) ::
    resolutions None st children ++
    (if cleanup env s st is Returned _ st'
     then [(clock st', CleanedUpSet s)] else [])
  end.
Proof.
  intros children. unfold added. rewrite cleanup_unfold. fold children.
  destruct (_cleanup (methods env s) (world st)) as [|after [e|] w]; cbv zeta.
  - cbn [state_of]. rewrite settle_trace. cbn [trace].
    rewrite <- app_assoc. by rewrite drop_app_length.
  - cbn [state_of]. rewrite settle_trace. cbn [trace].
    rewrite <- !app_assoc. by rewrite drop_app_length.
  - destruct (all_resolve env st children); cbn [state_of trace clock].
    all: rewrite settle_trace; cbn [trace].
    all: rewrite <- !app_assoc; rewrite drop_app_length; cbn [app].
    + done.
    + by rewrite app_nil_r.
Qed.

(** C4. [cleanup] returns exactly when the teardown routine completes and
    the [cleaned_up] of every registered child resolves, at whatever times
    and in whatever order they do.  [cleaned_up] is set once when it returns
    and not at all otherwise; the setting is the last thing that happens,
    no earlier than the end of the teardown and than the resolution of each
    child. *)
Theorem cleaned_up_fan_in (s : sid) (st : St) :
  let children := child_services (world st) s in
  let out := cleanup env s st in
  let new := added st out in
  ((exists st', out = Returned () st') <->
   (exists after w,
      _cleanup (methods env s) (world st) = Finishes after None w) /\
   Forall (fun c => is_Some (resolves_at env st c)) children) /\
  length (filter (fun e => e.2 = CleanedUpSet s) new) =
    (if out is Returned _ _ then 1 else 0) /\
  (forall st', out = Returned () st' ->
   last new = Some (clock st', CleanedUpSet s) /\
   (exists after w,
      _cleanup (methods env s) (world st) = Finishes after None w /\
      (clock st + after, CleanupLeft s) ∈ new /\
      clock st + after <= clock st') /\
   Forall (fun c => exists t, resolves_at env st c = Some t /\
                              (t, Resolved c) ∈ new /\ t <= clock st')
     children /\
   (s < length (services (world st')) ->
    cleaned_up (service (world st') s) = true)).
Proof.
  intros children out new.
  pose proof (cleanup_added s st) as Hnew. cbv zeta in Hnew.
  fold children out new in Hnew.
  pose proof (cleanup_unfold s st) as Hout. cbv zeta in Hout.
  fold children out in Hout.
  destruct (_cleanup (methods env s) (world st)) as [|after [e|] w] eqn:Hteardown.
  - (* the teardown never ends *)
    rewrite Hout, Hnew. split; [|split].
    + split; [by intros [? ?]|by intros [(? & ? & ?) _]].
    + rewrite filter_cons_False by done.
      by rewrite filter_set_resolutions.
    + done.
  - (* the teardown raises *)
    rewrite Hout, Hnew. split; [|split].
    + split; [by intros [? ?]|by intros [(? & ? & ?) _]].
    + rewrite !filter_cons_False by done.
      by rewrite filter_set_resolutions.
    + done.
  - destruct (all_resolve env st children) eqn:Hall.
    + (* everything completes *)
      set (left := {| world := w; clock := clock st + after;
                      trace := (trace st ++ [(clock st, CleanupEntered s)]) ++
                               [(clock st + after, CleanupLeft s)] |}) in *.
      set (done := settle env None st children left) in *.
      pose proof (advances_settle None st children left) as [_ Hclock].
      fold done in Hclock. cbn [left clock] in Hclock.
      rewrite Hnew, Hout. cbn [clock]. split; [|split].
      * split; [intros _|by eauto].
        split; [by eauto|]. by apply all_resolve_Forall.
      * rewrite !filter_cons_False by done.
        rewrite filter_app, filter_set_resolutions.
        by rewrite filter_cons_True.
      * intros st' [= <-]. cbn [clock world].
        split; [|split; [|split]].
        -- rewrite !app_comm_cons. apply last_snoc.
        -- exists after, w. split; [done|]. split; [|done].
           constructor. constructor.
        -- apply Forall_forall. intros c Hc.
           apply all_resolve_Forall in Hall.
           rewrite Forall_forall in Hall. destruct (Hall c Hc) as [t Ht].
           destruct (settle_resolved st children left c t Hc Ht) as [Hin Hle].
           exists t. split; [done|]. split; [|done].
           do 2 constructor. apply elem_of_app. by left.
        -- intros Hs. apply service_set_cleaned_up.
           unfold set_cleaned_up, with_services in Hs. cbn [services] in Hs.
           by rewrite length_alter in Hs.
    + (* a child never resolves *)
      rewrite Hnew, Hout. split; [|split].
      * split; [by intros [? ?]|].
        intros [_ Hall']. apply all_resolve_Forall in Hall'. congruence.
      * rewrite !filter_cons_False by done.
        rewrite filter_app, filter_set_resolutions. done.
      * done.
Qed.

(** C2. [run] raises the [RuntimeError] of a broken contract, with nothing
    done and the work routine not entered, exactly when the service is
    already running or its cancel token is already triggered.  Otherwise it
    takes the run-lock and enters [_run()] with the lock held: if [_run()]
    never ends, [run] stays there, the service running; if it ends, the lock
    is released only after it. *)
Theorem run_contract (s : sid) (finished_callback : option Callback) (st : St) :
  s < length (services (world st)) ->
  let w := world st in
  let refused :=
    is_running w s || triggered (token_bits w) (cancel_token (service w s)) in
  let locked := set_run_lock s true w in
  let entered :=
    trace st ++ [(clock st, Acquired s); (clock st, RunEntered s)] in
  (refused = true <->
   exists message,
     run env s finished_callback st = Raised (RuntimeError message) st) /\
  (refused = false ->
   is_running locked s = true /\
   match _run (methods env s) locked with
   | Never =>
     run env s finished_callback st =
     Blocked {| world := locked; clock := clock st; trace := entered |}
   | Finishes after _ _ =>
     entered ++ [(clock st + after, RunLeft s); (clock st + after, Released s)]
       `prefix_of` trace (state_of (run env s finished_callback st))
   end).
Proof.
  intros Hs w refused locked entered.
  assert (refused = false ->
          match _run (methods env s) locked with
          | Never =>
            run env s finished_callback st =
            Blocked {| world := locked; clock := clock st; trace := entered |}
          | Finishes after _ _ =>
            entered ++
              [(clock st + after, RunLeft s); (clock st + after, Released s)]
              `prefix_of` trace (state_of (run env s finished_callback st))
          end) as Haccepted.
  { intros Hfree. apply orb_false_elim in Hfree as [Hrun Htrig].
    destruct (_run (methods env s) locked) as [|after raised w1] eqn:Hwork.
    - by apply run_work_never.
    - rewrite (run_work_finishes s _ st after raised w1) by done.
      rewrite state_of_reraised.
      etrans; [|apply steady_run_finally].
      unfold run_left, entered. cbn [trace].
      rewrite <- !app_assoc. cbn [app].
      apply prefix_app, prefix_cons, prefix_cons, prefix_cons, prefix_cons.
      apply prefix_nil. }
  split; [split|].
  - intros Hrefused. apply orb_prop in Hrefused.
    destruct (is_running w s) eqn:Hrun.
    + eexists. by apply run_while_running.
    + destruct Hrefused as [?|Htrig]; [done|].
      eexists. by apply run_after_trigger.
  - intros [message Hraised].
    destruct refused eqn:Hrefused; [done|]. exfalso.
    specialize (Haccepted eq_refl). rewrite Hraised in Haccepted.
    destruct (_run (methods env s) locked); [done|].
    apply prefix_length in Haccepted. cbn [state_of] in Haccepted.
    unfold entered in Haccepted. rewrite !length_app in Haccepted.
    simpl in Haccepted. lia.
  - intros Hfree. split; [by apply is_running_set_run_lock|by apply Haccepted].
Qed.

(** C3, as amended.  Once [run] has passed its preconditions and the work
    routine has ended, whether it returned, raised [OperationCancelled] or
    raised any other fault, [run] has released the run-lock, triggers the
    service's own cancel token and calls [cleanup], however it goes on from
    there.  It goes on as [cleanup] does: a fault of the teardown leaves
    [run] with that fault and a child that is never cleaned up keeps it
    waiting, in both cases without the callback; when [cleanup] returns,
    the callback, if there is one, is called with the service. [run]
    returns normally exactly when what the work routine raised, if
    anything, is an [Exception], [cleanup] returns and the callback does not
    raise. *)
Theorem run_completes (s : sid) (finished_callback : option Callback)
    (st : St) (after : nat) (raised : option exn) (w : World) :
  is_running (world st) s = false ->
  triggered (token_bits (world st)) (cancel_token (service (world st) s))
    = false ->
  _run (methods env s) (set_run_lock s true (world st))
    = Finishes after raised w ->
  let left := run_left s st after raised w in
  let token := cancel_token (service (world left) s) in
  let fired := own_token_triggered s left in
  let out := run env s finished_callback st in
  let finish st' :=
    match finished_callback with
    | Some f => call_back f s st'
    | None => Returned () st'
    end in
  (* the token is triggered and the teardown entered, whatever follows *)
  trace left ++
    [(clock left, Triggered (bit token)); (clock left, CleanupEntered s)]
    `prefix_of` trace (state_of out) /\
  (clock st + after, Released s) ∈ trace left /\
  (allocated (token_bits (world left)) token ->
   triggered (token_bits (world fired)) token = true) /\
  (* [run] ends as [cleanup], called with the token triggered, and the
     callback do *)
  out = reraised (unhandled raised)
          match cleanup env s fired with
          | Returned _ st' => finish st'
          | Raised e st' => Raised e st'
          | Blocked st' => Blocked st'
          end /\
  (forall e st', cleanup env s fired = Raised e st' -> out = Raised e st') /\
  (forall st', cleanup env s fired = Blocked st' -> out = Blocked st') /\
  (forall st',
     cleanup env s fired = Returned () st' ->
     last (trace st') = Some (clock st', CleanedUpSet s) /\
     state_of out =
       {| world := match finished_callback with
                   | Some f => (f s (world st')).1
                   | None => world st'
                   end;
          clock := clock st';
          trace := trace st' ++
                   match finished_callback with
                   | Some _ => [(clock st', CalledBack s)]
                   | None => []
                   end |}) /\
  (* when [run] raises nothing *)
  ((exists st'', out = Returned () st'') <->
   unhandled raised = None /\
   exists st',
     cleanup env s fired = Returned () st' /\
     forall f, finished_callback = Some f -> (f s (world st')).2 = None).
Proof.
  intros Hrun Htrig Hwork left token fired out finish.
  assert (out = reraised (unhandled raised)
                  match cleanup env s fired with
                  | Returned _ st' => finish st'
                  | Raised e st' => Raised e st'
                  | Blocked st' => Blocked st'
                  end) as Hout.
  { unfold out. rewrite (run_work_finishes s _ st after raised w) by done.
    by rewrite run_finally_unfold. }
  assert (forall st', state_of (finish st') =
            {| world := match finished_callback with
                        | Some f => (f s (world st')).1
                        | None => world st'
                        end;
               clock := clock st';
               trace := trace st' ++
                        match finished_callback with
                        | Some _ => [(clock st', CalledBack s)]
                        | None => []
                        end |}) as Hfinish.
  { intros st'. unfold finish, call_back. destruct finished_callback as [f|].
    - by destruct (f s (world st')) as [w' [e|]].
    - rewrite app_nil_r. by destruct st'. }
  pose proof (cleanup_unfold s fired) as Hunf. cbv zeta in Hunf.
  repeat apply conj.
  - rewrite Hout, state_of_reraised.
    assert (trace left ++
              [(clock left, Triggered (bit token)); (clock left, CleanupEntered s)]
            `prefix_of` trace (state_of (cleanup env s fired))) as Hpre.
    { rewrite Hunf.
      replace (trace left ++ [(clock left, Triggered (bit token));
                              (clock left, CleanupEntered s)])
        with (trace fired ++ [(clock fired, CleanupEntered s)])
        by (unfold fired, own_token_triggered; cbn [trace clock];
            by rewrite <- app_assoc).
      destruct (_cleanup (methods env s) (world fired)) as [|a [e|] w'];
        cbn [state_of].
      - apply (advances_settle None fired).
      - etrans; [|apply (advances_settle (Some (clock fired + a)) fired)].
        cbn [trace]. by apply prefix_app_r.
      - assert (trace fired ++ [(clock fired, CleanupEntered s)]
                `prefix_of`
                trace (settle env None fired (child_services (world fired) s)
                         {| world := w'; clock := clock fired + a;
                            trace := (trace fired ++
                                        [(clock fired, CleanupEntered s)]) ++
                                     [(clock fired + a, CleanupLeft s)] |}))
          as Hdone.
        { etrans; [|apply (advances_settle None fired)].
          cbn [trace]. by apply prefix_app_r. }
        destruct (all_resolve env fired _); cbn [state_of trace];
          [by apply prefix_app_r|exact Hdone]. }
    destruct (cleanup env s fired) as [[] st'|e st'|st']; cbn [state_of] in *;
      [|exact Hpre..].
    rewrite Hfinish. cbn [trace]. by apply prefix_app_r.
  - unfold left, run_left. cbn [trace].
    rewrite !elem_of_app, !elem_of_cons. left. right. auto.
  - intros Halloc. unfold fired, own_token_triggered.
    cbn [world token_bits with_token_bits]. by apply triggered_trigger.
  - exact Hout.
  - intros e st' Hc. rewrite Hout, Hc. by destruct (unhandled raised).
  - intros st' Hc. rewrite Hout, Hc. by destruct (unhandled raised).
  - intros st' H. split.
    + apply cleanup_returned in H as [done ->]. cbn [trace clock].
      apply last_snoc.
    + rewrite Hout, state_of_reraised, H. apply Hfinish.
  - intros [st'' Hret]. rewrite Hout in Hret.
    destruct (unhandled raised) as [e|].
    { destruct (match cleanup env s fired with
                | Returned _ st' => finish st'
                | Raised e0 st' => Raised e0 st'
                | Blocked st' => Blocked st'
                end); done. }
    split; [done|]. cbn [reraised] in Hret.
    destruct (cleanup env s fired) as [[] st'|e st'|st']; [|done..].
    exists st'. split; [done|]. intros f ->. unfold finish, call_back in Hret.
    by destruct (f s (world st')) as [w' [e|]].
  - intros (Hnone & st' & Hc & Hcb). rewrite Hout, Hnone, Hc. cbn [reraised].
    unfold finish, call_back. destruct finished_callback as [f|]; [|by eexists].
    specialize (Hcb f eq_refl).
    destruct (f s (world st')) as [w' [e|]]; [done|by eexists].
Qed.

(** *** [cancel] *)

Lemma cancel_triggered s st :
  triggered (token_bits (world st)) (cancel_token (service (world st) s))
    = true ->
  cancel env s st =
  Returned ()
    {| world := world st; clock := clock st;
       trace := trace st ++
         [(clock st,
           Log WARNING s "Tried to cancel %s, but it was already cancelled")] |}.
Proof.
  intros H. unfold cancel. unfold mbind at 1, M_bind at 1, gets at 1.
  by rewrite H.
Qed.

Lemma cancel_not_running s st :
  triggered (token_bits (world st)) (cancel_token (service (world st) s))
    = false ->
  is_running (world st) s = false ->
  cancel env s st =
  Raised (RuntimeError "Cannot cancel a service that has not been started") st.
Proof.
  intros H1 H2. unfold cancel. unfold mbind at 1, M_bind at 1, gets at 1.
  rewrite H1. unfold mbind at 1, M_bind at 1, gets at 1. by rewrite H2.
Qed.

(** What the other tasks do while [cancel] waits: they set events, trigger
    tokens and release run-locks, and nothing else. *)
Lemma lookup_caught_up t w s :
  services (caught_up env t w) !! s =
  (fun o =>
     {| class_name := class_name o;
        _run_lock := _run_lock o && negb (happened (released_at env s) t);
        cleaned_up := cleaned_up o || happened (cleaned_up_at env s) t;
        cancel_token := cancel_token o;
        own_child_services := own_child_services o |}) <$> services w !! s.
Proof. unfold caught_up. cbn [services]. apply list_lookup_imap. Qed.

Lemma cancel_token_caught_up t w s :
  cancel_token (service (caught_up env t w) s) = cancel_token (service w s).
Proof.
  unfold service. rewrite lookup_caught_up. by destruct (services w !! s).
Qed.





Lemma triggered_caught_up t w token :
  triggered (token_bits w) token = true ->
  triggered (token_bits (caught_up env t w)) token = true.
Proof.
  apply triggered_mono. intros i. unfold caught_up, own. cbn [token_bits].
  rewrite list_lookup_imap. destruct (token_bits w !! i); [|done].
  cbn. by intros ->.
Qed.


(** The state of [cancel] once it has triggered the token. *)
Definition cancelling (s : sid) (st : St) : St :=
  let token := cancel_token (service (world st) s) in
  {| world := with_token_bits (trigger token) (world st); clock := clock st;
     trace := trace st ++ [(clock st, Log DEBUG s "Cancelling %s");
                           (clock st, Triggered (bit token))] |}.

(** How [cancel] ends when the grace period passes first. *)
Definition gave_up (s : sid) (st : St) : St :=
  let deadline := clock st + _wait_until_finished_timeout in
  {| world := caught_up env deadline (world st); clock := deadline;
     trace := trace st ++
       [(deadline, Abandoned (Awaited 0));
        (deadline,
         Log INFO s "Timed out waiting for %s to finish its cleanup, exiting anyway")]
  |}.

Lemma cancel_running s st :
  triggered (token_bits (world st)) (cancel_token (service (world st) s))
    = false ->
  is_running (world st) s = true ->
  cancel env s st =
  let fired := cancelling s st in
  let deadline := clock st + _wait_until_finished_timeout in
  match resolves_at env st s with
  | Some t =>
    if bool_decide (t <= deadline) then
      Returned ()
        {| world := set_cleaned_up s (caught_up env t (world fired)); clock := t;
           trace := trace fired ++
             [(t, Resolved s); (t, Log DEBUG s "%s finished cleanly")] |}
    else Returned () (gave_up s fired)
  | None => Returned () (gave_up s fired)
  end.
Proof.
  intros H1 H2. unfold cancel. unfold mbind at 1, M_bind at 1, gets at 1.
  rewrite H1. unfold mbind at 1, M_bind at 1, gets at 1. rewrite H2.
  cbn [negb]. unfold token_trigger. step_monad.
  unfold try_except_else, wait_for, await_cleaned_up. cbn [world clock trace].
  change (resolves_at env _ s) with (resolves_at env st s).
  cbv zeta. unfold gave_up, cancelling.
  destruct (resolves_at env st s) as [t|] eqn:Ht.
  2:{ cbn [world clock trace]. by rewrite <- !app_assoc. }
  assert (clock st <= t) as Hle.
  { unfold resolves_at in Ht. destruct (cleaned_up _); [injection Ht; lia|].
    destruct (cleaned_up_at env s); [|done]. injection Ht. lia. }
  cbn [resolve clock]. replace (clock st `max` t) with t by lia.
  destruct (bool_decide (t <= _)).
  all: cbn [resolve world clock trace]; rewrite <- ?app_assoc.
  all: by replace (clock st `max` t) with t by lia.
Qed.

(** C5, as amended.  On a service that is not running, as one on which
    [run] was never called, and whose cancel token is not triggered,
    [cancel] raises the [RuntimeError] of a broken contract and does nothing
    else. *)
Theorem cancel_before_start (s : sid) (st : St) :
  is_running (world st) s = false ->
  triggered (token_bits (world st)) (cancel_token (service (world st) s))
    = false ->
  cancel env s st =
  Raised (RuntimeError "Cannot cancel a service that has not been started") st.
Proof. intros Hrun Htrig. by apply cancel_not_running. Qed.

(** C6. On a service whose cancel token is already triggered, [cancel] only
    logs a warning and returns: it raises nothing, takes no time, and leaves
    every object as it was, so the token, the [cleaned_up] event and the
    child list are unchanged. *)
Theorem cancel_idempotent (s : sid) (st : St) :
  triggered (token_bits (world st)) (cancel_token (service (world st) s))
    = true ->
  exists st',
    cancel env s st = Returned () st' /\
    trace st' =
      trace st ++
      [(clock st,
        Log WARNING s "Tried to cancel %s, but it was already cancelled")] /\
    clock st' = clock st /\
    world st' = world st /\
    triggered (token_bits (world st')) (cancel_token (service (world st') s))
      = true /\
    cleaned_up (service (world st') s) = cleaned_up (service (world st) s) /\
    child_services (world st') s = child_services (world st) s.
Proof.
  intros Htrig. eexists. split; [by apply cancel_triggered|].
  cbn [world clock trace]. done.
Qed.



(** *** [wait_first] *)

Lemma race_result {V} (done : option (nat * (nat * (exn + V))))
    (fires timeout : option nat) :
  (race done fires timeout = None <->
   done = None /\ fires = None /\ timeout = None) /\
  (forall t i r,
     race done fires timeout = Some (t, Won i r) <->
     done = Some (t, (i, r)) /\ later fires t /\ not_before timeout t) /\
  (forall t,
     race done fires timeout = Some (t, Cancelled) <->
     fires = Some t /\ not_before (fst <$> done) t /\ not_before timeout t) /\
  (forall t,
     race done fires timeout = Some (t, TimedOut) <->
     timeout = Some t /\ later (fst <$> done) t /\ later fires t).
Proof.
  unfold race, no_later, later, not_before.
  destruct done as [[td [i' r']]|], fires as [tf|], timeout as [tt|].
  all: cbn [fmap option_fmap option_map fst snd andb].
  all: repeat case_bool_decide; cbn [andb fmap option_fmap option_map fst snd].
  all: repeat split; intros; destruct_and?; simplify_eq; try done; try lia.
Qed.

Lemma first_done_spec {V} (awaitables : list (Awaitable V)) i t j r :
  first_done i awaitables = Some (t, (j, r)) ->
  i <= j /\
  (exists a, awaitables !! (j - i) = Some a /\
             finishes_after a = Some t /\ result a = r) /\
  Forall (fun a => not_before (finishes_after a) t) awaitables.
Proof.
  revert i t j r.
  induction awaitables as [|a rest IH]; intros i t j r; [done|].
  cbn [first_done].
  destruct (finishes_after a) as [ta|] eqn:Ha.
  - destruct (first_done (S i) rest) as [[t' [j' r']]|] eqn:Hrest.
    + destruct (IH (S i) t' j' r' Hrest) as (Hle & Hex & Hall).
      case_bool_decide as Hcmp; intros [= <- <- <-].
      * split; [done|]. split.
        { exists a. by rewrite Nat.sub_diag. }
        constructor; [by rewrite Ha; cbn|].
        eapply Forall_impl; [exact Hall|]. intros b Hb.
        unfold not_before in *. destruct (finishes_after b); [lia|done].
      * split; [lia|]. split.
        { destruct Hex as (b & Hb & ?). exists b.
          replace (j' - i) with (S (j' - S i)) by lia. done. }
        constructor; [rewrite Ha; cbn; lia|done].
    + intros [= <- <- <-]. split; [done|]. split.
      { exists a. by rewrite Nat.sub_diag. }
      constructor; [by rewrite Ha; cbn|].
      clear -Hrest. revert Hrest. generalize (S i).
      induction rest as [|b rest IH]; intros k Hk; [done|].
      cbn [first_done] in Hk. destruct (finishes_after b) eqn:Hb.
      { by destruct (first_done (S k) rest) as [[? ?]|];
          [case_bool_decide|]. }
      constructor; [by rewrite Hb|by eapply IH].
  - intros Hrest. destruct (IH (S i) t j r Hrest) as (Hle & Hex & Hall).
    split; [lia|]. split.
    + destruct Hex as (b & Hb & ?). exists b.
      replace (j - i) with (S (j - S i)) by lia. done.
    + constructor; [by rewrite Ha|done].
Qed.

Lemma first_done_never {V} (awaitables : list (Awaitable V)) i :
  first_done i awaitables = None <->
  Forall (fun a => finishes_after a = None) awaitables.
Proof.
  revert i. induction awaitables as [|a rest IH]; intros i; [done|].
  cbn [first_done]. rewrite Forall_cons.
  destruct (finishes_after a) as [ta|].
  - split; [|by intros [? _]].
    by destruct (first_done (S i) rest) as [[? ?]|]; [case_bool_decide|].
  - rewrite IH. split; [by intros ?|by intros [_ ?]].
Qed.

Lemma elem_of_pending {V} (awaitables : list (Awaitable V)) i t j a :
  awaitables !! j = Some a -> still_pending t a = true ->
  Awaited (i + j) ∈ pending i t awaitables.
Proof.
  revert i j. induction awaitables as [|b rest IH]; intros i j Hj Ha; [done|].
  cbn [pending]. destruct j as [|j]; cbn in Hj.
  - injection Hj as ->. rewrite Ha, Nat.add_0_r. by constructor.
  - apply elem_of_app. right.
    replace (i + S j) with (S i + j) by lia. by apply IH.
Qed.

Lemma still_pending_later {V} t (a : Awaitable V) :
  still_pending t a = true <-> later (finishes_after a) t.
Proof.
  unfold still_pending, later. destruct (finishes_after a); [|done].
  apply bool_decide_eq_true.
Qed.

Lemma sooner_le (l : list (option nat)) x :
  Some x ∈ l -> exists f, foldr sooner None l = Some f /\ f <= x.
Proof.
  induction l as [|a l IH]; [by intros ?%elem_of_nil|].
  intros [<-|Hin]%elem_of_cons; cbn [foldr].
  - destruct (foldr sooner None l) as [y|]; cbn; eexists; (split; [done|lia]).
  - destruct (IH Hin) as (f & -> & Hf).
    destruct a as [y|]; cbn; eexists; (split; [done|lia]).
Qed.

(** The wait on a token resolves as soon as any bit of its chain gets
    triggered. *)
Lemma fires_after_reach st token i t :
  i ∈ reach token -> triggered_at env i = Some t ->
  exists f, fires_after env st token = Some f /\ f <= t - clock st.
Proof.
  intros Hi Ht. unfold fires_after.
  destruct (triggered _ token); [exists 0; split; [done|lia]|].
  apply sooner_le. apply list_elem_of_fmap. exists i. by rewrite Ht.
Qed.

(** [wait_first] races against the given token chained to the token of the
    service, or against the token of the service if none is given. *)
Lemma wait_first_unfold {V} s (awaitables : list (Awaitable V)) token timeout st :
  let own := cancel_token (service (world st) s) in
  let chained :=
    match token with
    | Some token => chain token own (token_bits (world st))
    | None => (own, token_bits (world st))
    end in
  wait_first env s awaitables token timeout st =
  wait_with_token env awaitables chained.1 timeout
    {| world := with_token_bits (fun _ => chained.2) (world st);
       clock := clock st; trace := trace st |}.
Proof.
  unfold wait_first. destruct token as [token|]; step_monad.
  - unfold token_chain. cbn [world]. by destruct (chain _ _ _).
  - cbn [fst snd]. by destruct st as [[] ? ?].
Qed.

(** C8. [wait_first] races the awaitables against the wait on the token
    chain (the given token chained to the token of the service) and the
    timer.  The race ends in exactly one way, decided by what comes first:
    an awaitable finishes first and its result is the result, or the chain
    fires first and [OperationCancelled] is raised, or the deadline passes
    first and [TimeoutError] is raised; if none of the three ever happens
    (as with no awaitable, no timeout and a token never triggered) it stays
    blocked.  When it returns, every awaitable that has not finished, the
    timer and the wait on the token, if pending, have been cancelled. *)
Theorem wait_first_race {V} (s : sid) (awaitables : list (Awaitable V))
    (token : option CancelToken) (timeout : option nat) (st : St) :
  let own := cancel_token (service (world st) s) in
  let chained :=
    match token with
    | Some token => chain token own (token_bits (world st))
    | None => (own, token_bits (world st))
    end in
  let st1 := {| world := with_token_bits (fun _ => chained.2) (world st);
                clock := clock st; trace := trace st |} in
  let out := wait_first env s awaitables token timeout st in
  let done := first_done 0 awaitables in
  let fires := fires_after env st1 chained.1 in
  let outcome := race done fires timeout in
  (* which way the race ends *)
  (outcome = None <-> done = None /\ fires = None /\ timeout = None) /\
  (forall t i r,
     outcome = Some (t, Won i r) <->
     done = Some (t, (i, r)) /\ later fires t /\ not_before timeout t) /\
  (forall t,
     outcome = Some (t, Cancelled) <->
     fires = Some t /\ not_before (fst <$> done) t /\ not_before timeout t) /\
  (forall t,
     outcome = Some (t, TimedOut) <->
     timeout = Some t /\ later (fst <$> done) t /\ later fires t) /\
  (* the chain fires when a bit of the given token or of the service's does *)
  (forall i t,
     i ∈ reach own \/ (exists T, token = Some T /\ i ∈ reach T) ->
     triggered_at env i = Some t ->
     exists f, fires = Some f /\ f <= t - clock st) /\
  (* the awaitable that finishes first *)
  (done = None <-> Forall (fun a => finishes_after a = None) awaitables) /\
  (forall t i r,
     done = Some (t, (i, r)) ->
     (exists a, awaitables !! i = Some a /\
                finishes_after a = Some t /\ result a = r) /\
     Forall (fun a => not_before (finishes_after a) t) awaitables) /\
  (* what [wait_first] gives *)
  match outcome with
  | None => out = Blocked st1
  | Some (t, winner) =>
    exists st',
      out = match winner with
            | Won _ (inr v) => Returned v st'
            | Won _ (inl e) => Raised e st'
            | Cancelled => Raised (OperationCancelled (name chained.1)) st'
            | TimedOut => Raised TimeoutError st'
            end /\
      clock st' = clock st + t /\
      (forall j a,
         awaitables !! j = Some a -> later (finishes_after a) t ->
         (clock st + t, Abandoned (Awaited j)) ∈ trace st') /\
      (is_Some timeout -> winner <> TimedOut ->
       (clock st + t, Abandoned Timer) ∈ trace st') /\
      (winner <> Cancelled ->
       (clock st + t, Abandoned TokenWait) ∈ trace st')
  end.
Proof.
  intros own chained st1 out done fires outcome.
  destruct (race_result done fires timeout) as (Hnone & Hwon & Hcancel & Hlate).
  split; [done|]. split; [done|]. split; [done|]. split; [done|].
  split.
  { intros i t Hi Ht. apply (fires_after_reach st1 chained.1 i t); [|done].
    unfold chained. destruct token as [T|]; cbn [fst chain reach flat_map].
    - apply elem_of_cons. right. rewrite app_nil_r. apply elem_of_app.
      destruct Hi as [Hi|(T' & [= <-] & Hi)]; [by right|by left].
    - by destruct Hi as [Hi|(T' & [=] & _)]. }
  split; [apply first_done_never|].
  split.
  { intros t i r Hdone. apply first_done_spec in Hdone as (_ & Hex & Hall).
    by rewrite Nat.sub_0_r in Hex. }
  unfold out. rewrite wait_first_unfold. fold own chained st1.
  unfold wait_with_token. fold done fires outcome.
  destruct outcome as [[t winner]|]; [|done].
  eexists. split; [reflexivity|]. cbn [clock trace st1].
  split; [done|]. split; [|split].
  - intros j a Hj Ha. apply elem_of_app. right.
    apply (list_elem_of_fmap_2 (fun l => (clock st + t, Abandoned l))).
    apply elem_of_app. left.
    apply (elem_of_pending awaitables 0 t j a Hj).
    by apply still_pending_later.
  - intros [d ->] Hw. apply elem_of_app. right.
    apply (list_elem_of_fmap_2 (fun l => (clock st + t, Abandoned l))).
    apply elem_of_app. right. apply elem_of_app. right.
    destruct winner; [by constructor|by constructor|done].
  - intros Hw. apply elem_of_app. right.
    apply (list_elem_of_fmap_2 (fun l => (clock st + t, Abandoned l))).
    apply elem_of_app. right. apply elem_of_app. left.
    destruct winner; [by constructor|done|by constructor].
Qed.

(** *** The child list *)

(** [__init__] always returns; the instance it makes is not running, not
    cleaned up, and has no child list of its own, so that it finds the list
    of the class. *)
Lemma init_instance cls token st :
  exists self st',
    __init__ cls token st = Returned self st' /\
    is_running (world st') self = false /\
    cleaned_up (service (world st') self) = false /\
    own_child_services (service (world st') self) = None /\
    child_services_loc (world st') self = _child_services.
Proof.
  unfold __init__. destruct (new cls _) as [base σ].
  destruct (match token with
            | Some t => chain base t σ
            | None => (base, σ)
            end) as [c σ'].
  do 2 eexists. split; [done|].
  unfold is_running, child_services_loc, service. cbn [world services].
  by rewrite list_lookup_middle.
Qed.

(** Registering a child on one instance shows it in the child list of every
    instance that has no list of its own. *)
Lemma run_child_service_shared a b child st :
  own_child_services (service (world st) a) = None ->
  own_child_services (service (world st) b) = None ->
  _child_services < length (list_objects (world st)) ->
  child_services (world (state_of (run_child_service a child st))) b =
  child_services (world st) b ++ [child].
Proof.
  intros Ha Hb Hloc. unfold run_child_service. step_monad. cbn [state_of world].
  unfold child_services, child_services_loc, service in *.
  cbn [list_append ensure_future services list_objects].
  rewrite Ha, Hb. cbn [default]. rewrite list_lookup_alter_eq.
  destruct (list_objects (world st) !! _child_services) eqn:E; [done|].
  apply lookup_ge_None in E. lia.
Qed.

End Facts.

(** *** Executions *)

(** One instance of [EmptyService], made with no token. *)
Definition one_service : St := state_of (__init__ "EmptyService" None boot).

(** The same instance while its [run] holds the run-lock. *)
Definition one_running : St :=
  {| world := set_run_lock 0 true (world one_service); clock := 0; trace := [] |}.

(** An instance made with a token that was triggered before it ever ran. *)
Definition child_of_cancelled : St :=
  state_of ((token ← token_new "parent";
             __init__ "EmptyService" (Some token) ;;
             token_trigger token) boot).

(** Services whose teardown raises. *)
Definition failing_teardown : Env :=
  {| methods := fun _ =>
       {| _run w := Finishes 0 None w;
          _cleanup w := Finishes 0 (Some (Fault "OSError")) w |};
     cleaned_up_at := fun _ => None;
     triggered_at := fun _ => None;
     released_at := fun _ => None |}.

(** A callback that returns, and one that raises. *)
Definition noted : Callback := fun _ w => (w, None).
Definition complaining : Callback := fun _ w => (w, Some (Fault "ValueError")).

(** An instance with a registered child. *)
Definition with_child : St :=
  state_of ((a ← __init__ "EmptyService" None;
             c ← __init__ "EmptyService" None;
             run_child_service a c) boot).

(** An event loop in which the token bit 0 gets triggered at time 3. *)
Definition cancelled_at_3 : Env :=
  {| methods := fun _ => EmptyService;
     cleaned_up_at := fun _ => None;
     triggered_at := fun i => if decide (i = 0) then Some 3 else None;
     released_at := fun _ => None |}.

(** C1, on the code.  Three instances are made and the first registers the
    third as its child.  The second never registered anything, yet its child
    list holds the third: its [cleanup], which returned before, now waits for
    the third to be cleaned up and never returns. *)
Theorem child_list_shared_across_instances :
  let make :=
    a ← __init__ "EmptyService" None;
    b ← __init__ "EmptyService" None;
    c ← __init__ "EmptyService" None;
    mret (a, b, c) in
  exists before after,
    make boot = Returned (0, 1, 2) before /\
    child_services (world before) 1 = [] /\
    (if cleanup quiet 1 before is Returned _ _ then True else False) /\
    run_child_service 0 2 before = Returned 0 after /\
    child_services (world after) 0 = [2] /\
    child_services (world after) 1 = [2] /\
    (if cleanup quiet 1 after is Blocked _ then True else False).
Proof. do 2 eexists. repeat split. Qed.

(** A run refused: the service is already running. *)
Lemma run_contract_witness :
  0 < length (services (world one_running)) /\
  exists message,
    run quiet 0 None one_running = Raised (RuntimeError message) one_running.
Proof.
  assert (0 < length (services (world one_running))) as H by (cbn; lia).
  split; [exact H|].
  exact (proj1 (proj1 (run_contract quiet 0 None one_running H)) eq_refl).
Defined.

(** Three runs that pass the preconditions and whose work routine returns.
    The teardown raises: [run] raises the same fault and the callback is not
    called.  The callback raises: so does [run].  A registered child is
    never cleaned up: [run] waits for it for ever and the callback is not
    called. *)
Lemma run_fails_after_work :
  class_name (service (world one_service) 0) = "EmptyService" /\
  child_services (world with_child) 0 = [1] /\
  is_running (world one_service) 0 = false /\
  triggered (token_bits (world one_service))
    (cancel_token (service (world one_service) 0)) = false /\
  is_running (world with_child) 0 = false /\
  triggered (token_bits (world with_child))
    (cancel_token (service (world with_child) 0)) = false /\
  (exists st',
     run failing_teardown 0 (Some noted) one_service
       = Raised (Fault "OSError") st' /\
     trace st' =
       [(0, Acquired 0); (0, RunEntered 0); (0, RunLeft 0); (0, Released 0);
        (0, Triggered 0); (0, CleanupEntered 0); (0, CleanupLeft 0)]) /\
  (exists st',
     run quiet 0 (Some complaining) one_service
       = Raised (Fault "ValueError") st') /\
  (exists st',
     run quiet 0 (Some noted) with_child = Blocked st' /\
     trace st' =
       [(0, Acquired 0); (0, RunEntered 0); (0, RunLeft 0); (0, Released 0);
        (0, Triggered 0); (0, CleanupEntered 0); (0, CleanupLeft 0)]).
Proof.
  repeat apply conj; try (vm_compute; reflexivity).
  - eexists. split; vm_compute; reflexivity.
  - eexists. vm_compute. reflexivity.
  - eexists. split; vm_compute; reflexivity.
Qed.

Lemma run_completes_witness :
  exists st',
    run quiet 0 (Some noted) one_service = Returned () st' /\
    last (trace st') = Some (0, CalledBack 0).
Proof.
  pose proof (run_completes quiet 0 (Some noted) one_service 0 None
                (set_run_lock 0 true (world one_service))
                eq_refl eq_refl eq_refl) as H.
  cbv zeta in H. destruct H as (_ & _ & _ & _ & _ & _ & _ & Hiff).
  destruct (proj2 Hiff) as [st' Hret].
  { split; [reflexivity|]. eexists. split; [vm_compute; reflexivity|].
    intros f [= <-]. reflexivity. }
  exists st'. split; [exact Hret|].
  assert (st' = state_of (run quiet 0 (Some noted) one_service)) as ->
    by (rewrite Hret; reflexivity).
  vm_compute. reflexivity.
Defined.

(** A service made on a token that is then triggered, and never run:
    [cancel] logs a warning and returns. *)
Lemma cancel_before_run_returns :
  class_name (service (world child_of_cancelled) 0) = "EmptyService" /\
  is_running (world child_of_cancelled) 0 = false /\
  trace child_of_cancelled = [(0, Triggered 0)] /\
  cancel quiet 0 child_of_cancelled =
  Returned ()
    {| world := world child_of_cancelled; clock := 0;
       trace := [(0, Triggered 0);
                 (0, Log WARNING 0
                       "Tried to cancel %s, but it was already cancelled")] |}.
Proof. repeat split. Qed.

Lemma cancel_before_start_witness :
  class_name (service (world one_service) 0) = "EmptyService" /\
  cancel quiet 0 one_service =
  Raised (RuntimeError "Cannot cancel a service that has not been started")
    one_service.
Proof.
  split; [reflexivity|].
  exact (cancel_before_start quiet 0 one_service eq_refl eq_refl).
Defined.

Lemma cancel_idempotent_witness :
  class_name (service (world child_of_cancelled) 0) = "EmptyService" /\
  exists st',
    cancel quiet 0 child_of_cancelled = Returned () st' /\
    world st' = world child_of_cancelled.
Proof.
  split; [reflexivity|].
  destruct (cancel_idempotent quiet 0 child_of_cancelled eq_refl)
    as (st' & Hcancel & _ & _ & Hworld & _).
  by exists st'.
Defined.



(** C9, on the code.  A service is made on a parent token, so that its
    token is [base_token.chain(token)], and run: the [finally] block of
    [run] triggers the chained token, which is then triggered while neither
    of the two tokens it was chained from is. *)
Definition child_of_parent : St :=
  state_of ((token ← token_new "parent";
             __init__ "EmptyService" (Some token)) boot).

Lemma chained_token_triggered_alone :
  cancel_token (service (world child_of_parent) 0)
    = (chain (Tok "EmptyService" 1 []) (Tok "parent" 0 []) [false; false]).1 /\
  exists st',
    run quiet 0 None child_of_parent = Returned () st' /\
    triggered (token_bits (world st'))
      (cancel_token (service (world st') 0)) = true /\
    cancel_token (service (world st') 0)
      = cancel_token (service (world child_of_parent) 0) /\
    triggered (token_bits (world st')) (Tok "EmptyService" 1 []) = false /\
    triggered (token_bits (world st')) (Tok "parent" 0 []) = false.
Proof.
  split; [vm_compute; reflexivity|].
  eexists. repeat apply conj; vm_compute; reflexivity.
Qed.

(** *** Whole runs *)

(** A service whose work routine ends after 2 with [raised]. *)
Definition working (raised : option exn) : Env :=
  {| methods := fun _ =>
       {| _run w := Finishes 2 raised w; _cleanup w := Finishes 1 None w |};
     cleaned_up_at := fun _ => None;
     triggered_at := fun _ => None;
     released_at := fun _ => None |}.

(** An event loop in which the [run()] of the service 0 leaves its run-lock
    and sets [cleaned_up] at time 1. *)
Definition cleaned_up_at_1 : Env :=
  {| methods := fun _ => EmptyService;
     cleaned_up_at := fun s => if decide (s = 0) then Some 1 else None;
     triggered_at := fun _ => None;
     released_at := fun s => if decide (s = 0) then Some 1 else None |}.

(** [EmptyService().run()]: the lock is taken and released, the token
    triggered, the event set; afterwards the service is not running, is
    cancelled and cleaned up. *)
Example empty_service_runs :
  exists st',
    run quiet 0 None one_service = Returned () st' /\
    trace st' =
      [(0, Acquired 0); (0, RunEntered 0); (0, RunLeft 0); (0, Released 0);
       (0, Triggered 0); (0, CleanupEntered 0); (0, CleanupLeft 0);
       (0, CleanedUpSet 0)] /\
    is_running (world st') 0 = false /\
    triggered (token_bits (world st')) (cancel_token (service (world st') 0))
      = true /\
    cleaned_up (service (world st') 0) = true /\
    (if run quiet 0 None st' is Raised (RuntimeError _) _ then True else False).
Proof. eexists. repeat apply conj; vm_compute; reflexivity. Qed.

(** The work routine raises [OperationCancelled], or another fault: [run]
    logs it, cleans up, calls back and returns. *)
Example run_handles_work_faults :
  (exists st',
     run (working (Some (OperationCancelled "stop"))) 0 (Some noted) one_service
       = Returned () st' /\
     trace st' =
       [(0, Acquired 0); (0, RunEntered 0); (2, RunLeft 0); (2, Released 0);
        (2, Log INFO 0 "%s finished: %s"); (2, Triggered 0);
        (2, CleanupEntered 0); (3, CleanupLeft 0); (3, CleanedUpSet 0);
        (3, CalledBack 0)]) /\
  (exists st',
     run (working (Some (Fault "KeyError"))) 0 (Some noted) one_service
       = Returned () st' /\
     trace st' =
       [(0, Acquired 0); (0, RunEntered 0); (2, RunLeft 0); (2, Released 0);
        (2, Log ERROR 0 "Unexpected error in %r, exiting"); (2, Triggered 0);
        (2, CleanupEntered 0); (3, CleanupLeft 0); (3, CleanedUpSet 0);
        (3, CalledBack 0)]).
Proof. split; eexists; split; vm_compute; reflexivity. Qed.

(** The work routine is interrupted by something that is no [Exception]:
    [run] logs nothing, cleans up and calls back all the same, and then
    raises it. *)
Example run_lets_interrupts_through :
  exists st',
    run (working (Some (Interrupt "KeyboardInterrupt"))) 0 (Some noted)
      one_service
      = Raised (Interrupt "KeyboardInterrupt") st' /\
    trace st' =
      [(0, Acquired 0); (0, RunEntered 0); (2, RunLeft 0); (2, Released 0);
       (2, Triggered 0); (2, CleanupEntered 0); (3, CleanupLeft 0);
       (3, CleanedUpSet 0); (3, CalledBack 0)].
Proof. eexists. split; vm_compute; reflexivity. Qed.

(** [cancel] on a running service that is cleaned up after 1: it returns
    then, not after the whole grace period, and the service is no longer
    running. *)
Example cancel_returns_early :
  exists st',
    cancel cleaned_up_at_1 0 one_running = Returned () st' /\
    clock st' = 1 /\
    is_running (world st') 0 = false /\
    cleaned_up (service (world st') 0) = true /\
    trace st' =
      [(0, Log DEBUG 0 "Cancelling %s"); (0, Triggered 0); (1, Resolved 0);
       (1, Log DEBUG 0 "%s finished cleanly")].
Proof. eexists. repeat apply conj; vm_compute; reflexivity. Qed.

(** *** Races *)

(** No awaitable and no timeout: blocked until the token fires, then
    cancelled; blocked for ever if it never fires. *)
Example wait_first_nothing :
  (exists st',
     wait_first (V:=nat) cancelled_at_3 0 [] None None one_service
       = Raised (OperationCancelled "EmptyService") st' /\
     clock st' = 3) /\
  wait_first (V:=nat) quiet 0 [] None None one_service = Blocked one_service.
Proof. split; [eexists; split; reflexivity|reflexivity]. Qed.

(** An awaitable done after 2 wins against a token fired at 3 and a timeout
    of 5; the slower awaitable, the wait on the token and the timer are
    cancelled. *)
Example wait_first_result :
  wait_first cancelled_at_3 0
    [ {| finishes_after := Some 4; result := inr 7 |};
      {| finishes_after := Some 2; result := inr 8 |} ]
    None (Some 5) one_service =
  Returned 8
    {| world := world one_service; clock := 2;
       trace := [(2, Abandoned (Awaited 0)); (2, Abandoned TokenWait);
                 (2, Abandoned Timer)] |}.
Proof. reflexivity. Qed.

(** A timeout of 1 passes first. *)
Example wait_first_timeout :
  wait_first cancelled_at_3 0
    [ {| finishes_after := Some 2; result := inr 8 |} ] None (Some 1)
    one_service =
  Raised TimeoutError
    {| world := world one_service; clock := 1;
       trace := [(1, Abandoned (Awaited 0)); (1, Abandoned TokenWait)] |}.
Proof. reflexivity. Qed.

(** The token given to [wait_first] is chained to the token of the service:
    the service's token firing cancels the wait just the same. *)
Example wait_first_chained :
  exists st',
    (token ← token_new "caller";
     wait_first (V:=nat) cancelled_at_3 0 [] (Some token) None) one_service
      = Raised (OperationCancelled "caller:EmptyService") st' /\
    clock st' = 3.
Proof. eexists. split; reflexivity. Qed.

(** ** Further properties of the services *)

Section More.

Variable env : Env.

Ltac run_monad :=
  unfold mbind, M_bind, mret, M_ret, log;
  unfold gets, modify, emit, raise;
  cbn [world clock trace].

(** Recording resolved waits touches nothing but [cleaned_up] flags, and
    only sets them. *)
Lemma settle_world limit start waits st :
  let st' := settle env limit start waits st in
  token_bits (world st') = token_bits (world st) /\
  list_objects (world st') = list_objects (world st) /\
  scheduled (world st') = scheduled (world st) /\
  length (services (world st')) = length (services (world st)) /\
  (forall s, cancel_token (service (world st') s)
             = cancel_token (service (world st) s)) /\
  (forall s, is_running (world st') s = is_running (world st) s) /\
  (forall s, cleaned_up (service (world st) s) = true ->
             cleaned_up (service (world st') s) = true).
Proof.
  revert st. induction waits as [|c rest IH]; intros st; cbn [settle]; [done|].
  set (st1 := match resolves_at env start c with
              | Some t =>
                if default true ((fun l => bool_decide (t ≤ l)) <$> limit)
                then resolve t c st else st
              | None => st
              end).
  assert (token_bits (world st1) = token_bits (world st) /\
          list_objects (world st1) = list_objects (world st) /\
          scheduled (world st1) = scheduled (world st) /\
          length (services (world st1)) = length (services (world st)) /\
          (forall s, cancel_token (service (world st1) s)
                     = cancel_token (service (world st) s)) /\
          (forall s, is_running (world st1) s = is_running (world st) s) /\
          (forall s, cleaned_up (service (world st) s) = true ->
                     cleaned_up (service (world st1) s) = true)) as H1.
  { unfold st1. destruct (resolves_at env start c) as [t|]; [|done].
    destruct (default true _); [|done]. cbn [resolve world].
    repeat split.
    - apply length_services_set_cleaned_up.
    - intros s. apply cancel_token_set_cleaned_up.
    - intros s. apply is_running_set_cleaned_up.
    - intros s. apply cleaned_up_set_cleaned_up_mono. }
  destruct H1 as (Hb & Hl & Hs & Hn & Ht & Hr & Hc).
  destruct (IH st1) as (Hb' & Hl' & Hs' & Hn' & Ht' & Hr' & Hc').
  repeat split.
  - etrans; [apply Hb'|apply Hb].
  - etrans; [apply Hl'|apply Hl].
  - etrans; [apply Hs'|apply Hs].
  - etrans; [apply Hn'|apply Hn].
  - intros s. etrans; [apply Ht'|apply Ht].
  - intros s. etrans; [apply Hr'|apply Hr].
  - intros s Hs0. by apply Hc', Hc.
Qed.

(** The clock after the waits are recorded is the one before, or the time
    one of the waits resolved. *)
Lemma settle_clock_cases start waits st :
  clock (settle env None start waits st) = clock st \/
  exists c, c ∈ waits /\
    resolves_at env start c = Some (clock (settle env None start waits st)).
Proof.
  revert st. induction waits as [|c rest IH]; intros st; cbn [settle]; [by left|].
  destruct (resolves_at env start c) as [t|] eqn:E; cbn [fmap option_fmap option_map default].
  - destruct (IH (resolve t c st)) as [H|(c' & Hin & H)].
    + rewrite H. cbn [resolve clock].
      destruct (Nat.max_spec (clock st) t) as [[_ ->]|[_ ->]].
      * right. exists c. split; [left|done].
      * by left.
    + right. exists c'. split; [by right|done].
  - destruct (IH st) as [H|(c' & Hin & H)]; [by left|].
    right. exists c'. split; [by right|done].
Qed.

(** Waits on events that were set when they started take no time. *)
Lemma settle_clock_set start waits st :
  Forall (fun c => cleaned_up (service (world start) c) = true) waits ->
  clock start <= clock st ->
  clock (settle env None start waits st) = clock st.
Proof.
  revert st. induction waits as [|c rest IH]; intros st Hall Hle; cbn [settle];
    [done|].
  inversion Hall as [|? ? Hc Hrest]; subst.
  unfold resolves_at at 1. rewrite Hc. cbn [fmap option_fmap option_map default].
  rewrite IH; [|done|cbn [resolve clock]; lia].
  cbn [resolve clock]. lia.
Qed.

(** *** [cleanup] *)

(** X1.  A [cleanup] that returns does so exactly when the last of what it
    gathers is done: at the time the teardown [_cleanup()] ends, or at the
    time the wait on a registered child's [cleaned_up] resolves, whichever
    is later; never before any of them, and with every child's event set
    already, when the teardown ends. *)
Theorem cleanup_returns_with_the_last (s : sid) (st st' : St) :
  cleanup env s st = Returned () st' ->
  let children := child_services (world st) s in
  exists after w,
    _cleanup (methods env s) (world st) = Finishes after None w /\
    (clock st' = clock st + after \/
     exists c, c ∈ children /\ resolves_at env st c = Some (clock st')) /\
    clock st + after <= clock st' /\
    Forall (fun c => exists t, resolves_at env st c = Some t /\ t <= clock st')
      children /\
    (Forall (fun c => cleaned_up (service (world st) c) = true) children ->
     clock st' = clock st + after).
Proof.
  rewrite cleanup_unfold. cbv zeta. intros H.
  destruct (_cleanup (methods env s) (world st)) as [|after [e|] w]; [done..|].
  destruct (all_resolve env st (child_services (world st) s)) eqn:Hall; [|done].
  injection H as <-. cbn [clock].
  set (left := {| world := w; clock := clock st + after; trace := _ |}).
  exists after, w. split; [done|].
  split; [|split; [|split]].
  - destruct (settle_clock_cases st (child_services (world st) s) left)
      as [->|(c & Hin & Hc)]; [by left|right; by exists c].
  - apply (advances_settle env None st (child_services (world st) s) left).
  - apply all_resolve_Forall in Hall. apply Forall_forall. intros c Hin.
    rewrite Forall_forall in Hall. destruct (Hall c Hin) as [t Ht].
    exists t. split; [done|].
    by apply (settle_resolved env st (child_services (world st) s) left c t).
  - intros Hset. rewrite settle_clock_set; [done|done|]. cbn. lia.
Qed.

(** *** [run_child_service] *)

(** X2.  [run_child_service] appends the child to the list [_child_services]
    names, whether or not it is there already, hands one future to the
    event loop, the last scheduled and the one it returns, and changes
    nothing else; it takes no time and logs nothing.  From then on the
    parent's [cleanup] does not return before the wait on that child's
    [cleaned_up] has resolved. *)
Theorem run_child_service_registers (s child_service : sid) (st : St) :
  child_services_loc (world st) s < length (list_objects (world st)) ->
  exists st',
    run_child_service s child_service st
      = Returned (length (scheduled (world st))) st' /\
    child_services (world st') s = child_services (world st) s ++ [child_service] /\
    scheduled (world st') = scheduled (world st) ++ [child_service] /\
    services (world st') = services (world st) /\
    token_bits (world st') = token_bits (world st) /\
    clock st' = clock st /\
    trace st' = trace st /\
    (forall st'',
       cleanup env s st' = Returned () st'' ->
       exists t, resolves_at env st' child_service = Some t /\
                 t <= clock st'' /\
                 (t, Resolved child_service) ∈ trace st'').
Proof.
  intros Hloc. eexists. split.
  { unfold run_child_service. run_monad. cbn [ensure_future list_append scheduled].
    rewrite length_app. cbn [length].
    by replace (length (scheduled (world st)) + 1 - 1)
      with (length (scheduled (world st))) by lia. }
  cbn [world clock trace].
  assert (child_services
            (ensure_future child_service
               (list_append (child_services_loc (world st) s) child_service
                  (world st))) s
          = child_services (world st) s ++ [child_service]) as Hchildren.
  { unfold child_services, child_services_loc, service.
    cbn [ensure_future list_append services list_objects].
    rewrite list_lookup_alter_eq.
    apply lookup_lt_is_Some_2 in Hloc as [xs Hxs].
    unfold child_services_loc, service in Hxs. by rewrite Hxs. }
  repeat apply conj; try done.
  intros st'' Hret. rewrite cleanup_unfold in Hret. cbv zeta in Hret.
  cbn [world clock trace] in Hret. rewrite Hchildren in Hret.
  destruct (_cleanup (methods env s) _) as [|after [e|] w]; [done..|].
  destruct (all_resolve env _ _) eqn:Hall; [|done].
  injection Hret as <-. cbn [clock trace].
  apply all_resolve_Forall in Hall. rewrite Forall_forall in Hall.
  assert (child_service ∈ child_services (world st) s ++ [child_service])
    as Hin by (apply elem_of_app; right; constructor).
  destruct (Hall _ Hin) as [t Ht]. exists t. split; [exact Ht|].
  match goal with
  | |- context [settle env None ?start ?waits ?left] =>
    destruct (settle_resolved env start waits left child_service t Hin Ht)
      as [Hres Hle];
    split; [exact Hle|];
    rewrite (settle_trace env None start waits left)
  end.
  apply elem_of_app; left. apply elem_of_app; by right.
Qed.

(** *** [cancel] after [cancel] *)

(** X3.  A [cancel] of a running service that is not cancelled returns, and
    leaves the service cancelled whether or not its [cleaned_up] got set in
    time: a second [cancel] finds the token triggered, logs the warning and
    does nothing else, and a [run] is refused. *)
Theorem cancel_then_cancel (s : sid) (finished_callback : option Callback)
    (st : St) :
  allocated (token_bits (world st)) (cancel_token (service (world st) s)) ->
  is_running (world st) s = true ->
  triggered (token_bits (world st)) (cancel_token (service (world st) s))
    = false ->
  exists st1,
    cancel env s st = Returned () st1 /\
    triggered (token_bits (world st1)) (cancel_token (service (world st1) s))
      = true /\
    cancel env s st1 =
      Returned ()
        {| world := world st1; clock := clock st1;
           trace := trace st1 ++
             [(clock st1,
               Log WARNING s
                 "Tried to cancel %s, but it was already cancelled")] |} /\
    exists message,
      run env s finished_callback st1 = Raised (RuntimeError message) st1.
Proof.
  intros Halloc Hrun Hnot.
  assert (exists st1,
            cancel env s st = Returned () st1 /\
            triggered (token_bits (world st1))
              (cancel_token (service (world st1) s)) = true) as (st1 & Hc & Ht).
  { rewrite (cancel_running env s st Hnot Hrun). cbv zeta.
    assert (triggered (token_bits (world (cancelling s st)))
              (cancel_token (service (world (cancelling s st)) s)) = true) as Hf.
    { cbn. by apply TokenFacts.triggered_trigger. }
    destruct (resolves_at env st s) as [t|];
      [destruct (bool_decide _)|]; eexists; (split; [reflexivity|]);
      cbn [world gave_up];
      rewrite ?cancel_token_set_cleaned_up, cancel_token_caught_up;
      try change (token_bits (set_cleaned_up s ?w0)) with (token_bits w0);
      apply triggered_caught_up; exact Hf. }
  exists st1. split; [exact Hc|]. split; [exact Ht|]. split.
  - by apply cancel_triggered.
  - destruct (is_running (world st1) s) eqn:Hr.
    + eexists. by apply run_while_running.
    + eexists. by apply run_after_trigger.
Qed.

Lemma settle_child_services limit start waits st s :
  child_services (world (settle env limit start waits st)) s
  = child_services (world st) s.
Proof.
  revert st. induction waits as [|c rest IH]; intros st; cbn [settle]; [done|].
  rewrite IH. destruct (resolves_at env start c) as [t|]; [|done].
  destruct (default true _); [|done]. cbn [resolve world].
  apply child_services_set_cleaned_up.
Qed.

(** *** [EmptyService] *)

(** X4.  An [EmptyService] that may start, and whose registered children (if
    any) have their [cleaned_up] set, runs to its end without waiting: [run]
    reaches the callback at the time it was called, with the service not
    running, cancelled and cleaned up, and its child list as it was. *)
Theorem empty_service_run (s : sid) (finished_callback : option Callback)
    (st : St) :
  methods env s = EmptyService ->
  s < length (services (world st)) ->
  allocated (token_bits (world st)) (cancel_token (service (world st) s)) ->
  is_running (world st) s = false ->
  triggered (token_bits (world st)) (cancel_token (service (world st) s))
    = false ->
  Forall (fun c => cleaned_up (service (world st) c) = true)
    (child_services (world st) s) ->
  exists st',
    run env s finished_callback st =
      match finished_callback with
      | Some f => call_back f s st'
      | None => Returned () st'
      end /\
    clock st' = clock st /\
    is_running (world st') s = false /\
    cleaned_up (service (world st') s) = true /\
    triggered (token_bits (world st')) (cancel_token (service (world st') s))
      = true /\
    child_services (world st') s = child_services (world st) s /\
    scheduled (world st') = scheduled (world st).
Proof.
  intros Hm Hs Halloc Hrun Hnot Hset.
  rewrite (run_work_finishes env s finished_callback st 0 None
             (set_run_lock s true (world st)) Hrun Hnot)
    by (by rewrite Hm).
  rewrite run_finally_unfold, cleanup_unfold. cbv zeta. rewrite Hm.
  cbn [_cleanup EmptyService].
  set (left := run_left s st 0 None (set_run_lock s true (world st))).
  set (fired := own_token_triggered s left).
  assert (child_services (world fired) s = child_services (world st) s) as Hch.
  { unfold fired, own_token_triggered, left, run_left. cbn [world].
    unfold child_services, child_services_loc, with_token_bits, service.
    cbn [services list_objects].
    fold (service (set_run_lock s false (set_run_lock s true (world st))) s).
    change (list_objects (set_run_lock s false (set_run_lock s true (world st))))
      with (list_objects (world st)).
    pose proof (child_services_set_run_lock
                  (set_run_lock s true (world st)) s s false) as H1.
    pose proof (child_services_set_run_lock (world st) s s true) as H2.
    unfold child_services, child_services_loc in H1, H2.
    cbn [set_run_lock with_services list_objects] in H1, H2.
    etrans; [exact H1|exact H2]. }
  assert (forall c, cleaned_up (service (world fired) c)
                    = cleaned_up (service (world st) c)) as Hcl.
  { intros c. unfold fired, own_token_triggered, left, run_left. cbn [world].
    change (service (with_token_bits ?f ?w) c) with (service w c).
    by rewrite !cleaned_up_set_run_lock. }
  assert (Forall (fun c => cleaned_up (service (world fired) c) = true)
            (child_services (world fired) s)) as Hset'.
  { rewrite Hch. eapply Forall_impl; [exact Hset|].
    intros c Hc. cbn beta. by rewrite Hcl. }
  assert (all_resolve env fired (child_services (world fired) s) = true) as ->.
  { apply all_resolve_Forall. eapply Forall_impl; [exact Hset'|].
    intros c Hc. cbn beta in *. unfold resolves_at. by rewrite Hc. }
  set (done := settle env None fired (child_services (world fired) s) _).
  eexists. split; [reflexivity|]. cbn [world clock].
  destruct (settle_world None fired (child_services (world fired) s)
              {| world := world fired; clock := clock fired + 0;
                 trace := (trace fired ++ [(clock fired, CleanupEntered s)]) ++
                          [(clock fired + 0, CleanupLeft s)] |})
    as (Hb & Hl & Hsch & Hn & Ht & Hr & Hc).
  fold done in Hb, Hl, Hsch, Hn, Ht, Hr, Hc. cbn [world] in Hb, Hl, Hsch, Hn, Ht, Hr, Hc.
  assert (length (services (world fired)) = length (services (world st))) as Hlen.
  { unfold fired, own_token_triggered, left, run_left. cbn [world].
    change (services (with_token_bits ?f ?w)) with (services w).
    by rewrite !length_services_set_run_lock. }
  repeat apply conj.
  - unfold done. rewrite settle_clock_set; [|exact Hset'|cbn; lia].
    cbn. lia.
  - rewrite is_running_set_cleaned_up, Hr.
    unfold fired, own_token_triggered, left, run_left. cbn [world].
    change (is_running (with_token_bits ?f ?w) s) with (is_running w s).
    apply is_running_set_run_lock. by rewrite length_services_set_run_lock.
  - apply service_set_cleaned_up. by rewrite Hn, Hlen.
  - rewrite cancel_token_set_cleaned_up, Ht.
    change (token_bits (set_cleaned_up s (world done)))
      with (token_bits (world done)). rewrite Hb.
    unfold fired, own_token_triggered. cbn [world].
    change (service (with_token_bits ?f ?w) s) with (service w s).
    apply TokenFacts.triggered_trigger.
    unfold left, run_left. cbn [world].
    change (token_bits (set_run_lock s false (set_run_lock s true (world st))))
      with (token_bits (world st)).
    by rewrite !cancel_token_set_run_lock.
  - rewrite child_services_set_cleaned_up. unfold done.
    by rewrite settle_child_services.
  - change (scheduled (set_cleaned_up s (world done)))
      with (scheduled (world done)). by rewrite Hsch.
Qed.

(** *** The completion callback *)

Lemma added_app {A} st (o : Outcome A) k :
  trace (state_of o) = trace st ++ k -> added st o = k.
Proof. intros H. unfold added. rewrite H. apply drop_app_length. Qed.

Lemma added_steady {A} (m : M A) st :
  steady m -> trace (state_of (m st)) = trace st ++ added st (m st).
Proof.
  intros Hm. destruct (Hm st) as [[k Hk] _]. by rewrite (added_app _ _ k Hk).
Qed.

(** [cleanup] never calls a callback. *)
Lemma cleanup_no_callback s st e s' :
  e ∈ added st (cleanup env s st) -> e.2 <> CalledBack s'.
Proof.
  rewrite cleanup_added. cbv zeta.
  assert (forall limit, e ∈ resolutions env limit st (child_services (world st) s) ->
                        e.2 <> CalledBack s') as Hres.
  { intros limit Hin. apply resolutions_resolved in Hin as [c ->]. done. }
  destruct (_cleanup (methods env s) (world st)) as [|after [x|] w].
  - rewrite elem_of_cons. intros [->|Hin]; [done|by eapply Hres].
  - rewrite !elem_of_cons. intros [->|[->|Hin]]; [done..|by eapply Hres].
  - rewrite !elem_of_cons, elem_of_app.
    intros [->|[->|[Hin|Hin]]]; [done..|by eapply Hres|].
    destruct (cleanup env s st); [|by apply elem_of_nil in Hin..].
    apply list_elem_of_singleton in Hin as ->. done.
Qed.

(** X5.  [run] calls the completion callback at most once, as the last
    thing it does and only if one was given: everything else [run] did came
    before, among it the release of the run-lock and the triggering of the
    token, and immediately before the call, at the same time, [cleaned_up]
    was set. *)
Theorem callback_comes_last (s : sid) (finished_callback : option Callback)
    (st : St) (t : nat) :
  let out := run env s finished_callback st in
  let new := added st out in
  (t, CalledBack s) ∈ new ->
  is_Some finished_callback /\
  t = clock (state_of out) /\
  exists before,
    new = before ++ [(t, CalledBack s)] /\
    (forall e, e ∈ before -> e.2 <> CalledBack s) /\
    last before = Some (t, CleanedUpSet s) /\
    (exists t0, t0 <= t /\ (t0, Released s) ∈ before) /\
    (exists t0 b, t0 <= t /\ (t0, Triggered b) ∈ before).
Proof.
  cbv zeta.
  destruct (is_running (world st) s) eqn:Hrun.
  { rewrite run_while_running by done. unfold added. cbn [state_of].
    rewrite drop_all. by intros ?%elem_of_nil. }
  destruct (triggered (token_bits (world st)) (cancel_token (service (world st) s)))
    eqn:Hnot.
  { rewrite run_after_trigger by done. unfold added. cbn [state_of].
    rewrite drop_all. by intros ?%elem_of_nil. }
  destruct (_run (methods env s) (set_run_lock s true (world st)))
    as [|after raised w] eqn:Hwork.
  { rewrite (run_work_never env s finished_callback st Hrun Hnot Hwork).
    rewrite (added_app st _ [(clock st, Acquired s); (clock st, RunEntered s)])
      by done.
    rewrite !elem_of_cons. intros [?|[?|?%elem_of_nil]]; done. }
  rewrite (run_work_finishes env s finished_callback st after raised w
             Hrun Hnot Hwork), run_finally_unfold.
  unfold added at 1 2. rewrite !state_of_reraised.
  fold (added st (match cleanup env s (own_token_triggered s
                                         (run_left s st after raised w)) with
                  | Returned _ st' =>
                    match finished_callback with
                    | Some f => call_back f s st'
                    | None => Returned () st'
                    end
                  | Raised e st' => Raised e st'
                  | Blocked st' => Blocked st'
                  end)).
  set (left := run_left s st after raised w).
  set (fired := own_token_triggered s left).
  pose proof (added_steady (cleanup env s) fired (steady_cleanup env s)) as Htr.
  pose proof (cleanup_no_callback s fired) as Hquiet.
  pose proof (cleanup_added env s fired) as Hadded. cbv zeta in Hadded.
  pose proof (cleanup_unfold env s fired) as Hunf. cbv zeta in Hunf.
  pose proof (steady_cleanup env s fired) as [_ Hclock].
  set (pre := [(clock st, Acquired s); (clock st, RunEntered s);
               (clock st + after, RunLeft s); (clock st + after, Released s)] ++
              ((fun e => (clock st + after, e)) <$> handled s raised) ++
              [(clock st + after,
                Triggered (bit (cancel_token (service (world left) s))))]).
  assert (trace fired = trace st ++ pre) as Hfired.
  { unfold fired, own_token_triggered, left, run_left, pre. cbn [trace clock world].
    by rewrite <- !app_assoc. }
  assert (forall e, e ∈ pre -> e.2 <> CalledBack s) as Hpre.
  { intros e. unfold pre. rewrite !elem_of_app, !elem_of_cons.
    intros [[->|[->|[->|[->|?%elem_of_nil]]]]|[Hin|[->|?%elem_of_nil]]];
      try done.
    apply list_elem_of_fmap in Hin as (x & -> & Hx). cbn.
    destruct raised as [[]|]; cbn in Hx;
      try (by apply elem_of_nil in Hx);
      apply list_elem_of_singleton in Hx as ->; done. }
  assert (forall o : Outcome unit,
            trace (state_of o) = trace (state_of (cleanup env s fired)) ->
            (t, CalledBack s) ∈ added st o -> False) as Hnone.
  { intros o Ho. rewrite (added_app st o (pre ++ added fired (cleanup env s fired))).
    - rewrite elem_of_app. intros [Hin|Hin].
      + by apply Hpre in Hin.
      + by apply Hquiet with (s' := s) in Hin.
    - by rewrite Ho, Htr, Hfired, <- app_assoc. }
  destruct (cleanup env s fired) as [[] st3|e st3|st3] eqn:Hcleanup;
    [|intros Hin; by destruct (Hnone _ eq_refl Hin)..].
  destruct finished_callback as [f|];
    [|intros Hin; by destruct (Hnone (Returned () st3) eq_refl Hin)].
  cbn [state_of] in *.
  set (out := call_back f s st3).
  assert (trace (state_of out) = trace st3 ++ [(clock st3, CalledBack s)] /\
          clock (state_of out) = clock st3) as [Hout Hoc].
  { unfold out, call_back. destruct (f s (world st3)) as [w' [e|]]; done. }
  set (before := pre ++ added fired (Returned () st3)).
  assert (added st out = before ++ [(clock st3, CalledBack s)]) as Hnew.
  { apply added_app. unfold before.
    by rewrite Hout, Htr, Hfired, <- !app_assoc. }
  assert (forall e, e ∈ before -> e.2 <> CalledBack s) as Hbefore.
  { intros e. unfold before. rewrite elem_of_app. intros [Hin|Hin].
    - by apply Hpre.
    - by apply Hquiet with (s' := s) in Hin. }
  rewrite Hnew, elem_of_app. intros [Hin|Hin].
  { by apply Hbefore in Hin. }
  apply list_elem_of_singleton in Hin. injection Hin as ->.
  split; [by eexists|]. split; [by rewrite Hoc|].
  exists before. split; [done|]. split; [exact Hbefore|].
  assert (clock st + after <= clock st3) as Hle.
  { cbn in Hclock. exact Hclock. }
  repeat apply conj.
  - unfold before. rewrite Hadded.
    destruct (_cleanup (methods env s) (world fired)) as [|a [x|] w']; [done..|].
    rewrite app_comm_cons, (app_comm_cons _ _ (clock fired, CleanupEntered s)),
      !app_assoc.
    apply last_snoc.
  - exists (clock st + after). split; [exact Hle|].
    unfold before, pre. rewrite !elem_of_app, !elem_of_cons. left. left. auto.
  - exists (clock st + after), (bit (cancel_token (service (world left) s))).
    split; [exact Hle|].
    unfold before, pre. rewrite !elem_of_app, !elem_of_cons. left. right. right.
    by left.
Qed.

(** *** What [run] asks of the subclass *)

Lemma resolves_at_ext (env' : Env) st c :
  cleaned_up_at env' c = cleaned_up_at env c ->
  resolves_at env' st c = resolves_at env st c.
Proof. intros H. unfold resolves_at. by rewrite H. Qed.

Lemma settle_ext (env' : Env) limit start waits st :
  (forall c, cleaned_up_at env' c = cleaned_up_at env c) ->
  settle env' limit start waits st = settle env limit start waits st.
Proof.
  intros H. revert st. induction waits as [|c rest IH]; intros st; cbn [settle];
    [done|].
  by rewrite IH, resolves_at_ext.
Qed.

Lemma all_resolve_ext (env' : Env) start waits :
  (forall c, cleaned_up_at env' c = cleaned_up_at env c) ->
  all_resolve env' start waits = all_resolve env start waits.
Proof.
  intros H. unfold all_resolve. induction waits as [|c rest IH]; [done|].
  cbn [forallb]. by rewrite IH, resolves_at_ext.
Qed.

Lemma cleanup_ext (env' : Env) s st :
  (forall c, cleaned_up_at env' c = cleaned_up_at env c) ->
  _cleanup (methods env' s) (world st) = _cleanup (methods env s) (world st) ->
  cleanup env' s st = cleanup env s st.
Proof.
  intros H Hc. rewrite !cleanup_unfold. cbv zeta. rewrite Hc.
  destruct (_cleanup (methods env s) (world st)) as [|after [e|] w];
    by rewrite ?all_resolve_ext, !settle_ext.
Qed.

(** X6.  Of its subclass, [run] uses two things only: what [_run()] does
    when awaited once, with the run-lock held, and what [_cleanup()] does
    when awaited once, in the state [_run()] left, with the run-lock
    released and the token triggered.  Two classes that agree on these two
    calls give the same [run], whatever else they do. *)
Theorem run_asks_the_subclass_twice (env' : Env) (s : sid)
    (finished_callback : option Callback) (st : St) :
  let locked := set_run_lock s true (world st) in
  let at_cleanup after raised w :=
    world (own_token_triggered s (run_left s st after raised w)) in
  (forall c, cleaned_up_at env' c = cleaned_up_at env c) ->
  _run (methods env' s) locked = _run (methods env s) locked ->
  (forall after raised w,
     _run (methods env s) locked = Finishes after raised w ->
     _cleanup (methods env' s) (at_cleanup after raised w)
       = _cleanup (methods env s) (at_cleanup after raised w)) ->
  run env' s finished_callback st = run env s finished_callback st /\
  (s < length (services (world st)) -> is_running locked s = true) /\
  (forall after raised w,
     s < length (services w) ->
     allocated (token_bits w) (cancel_token (service w s)) ->
     is_running (at_cleanup after raised w) s = false /\
     triggered (token_bits (at_cleanup after raised w))
       (cancel_token (service (at_cleanup after raised w) s)) = true).
Proof.
  cbv zeta. intros Hev Hwork Hteardown. repeat apply conj.
  - destruct (is_running (world st) s) eqn:Hrun.
    { by rewrite !run_while_running. }
    destruct (triggered (token_bits (world st))
                (cancel_token (service (world st) s))) eqn:Hnot.
    { by rewrite !run_after_trigger. }
    destruct (_run (methods env s) (set_run_lock s true (world st)))
      as [|after raised w] eqn:Hw.
    { by rewrite !run_work_never. }
    rewrite (run_work_finishes env' s finished_callback st after raised w),
      (run_work_finishes env s finished_callback st after raised w),
      !run_finally_unfold by done.
    by rewrite (cleanup_ext env' s _ Hev (Hteardown after raised w eq_refl)).
  - intros Hs. by apply is_running_set_run_lock.
  - intros after raised w Hs Halloc. unfold own_token_triggered, run_left.
    cbn [world]. split.
    + change (is_running (with_token_bits ?f ?w0) s) with (is_running w0 s).
      by apply is_running_set_run_lock.
    + change (service (with_token_bits ?f ?w0) s) with (service w0 s).
      cbn [with_token_bits token_bits].
      change (token_bits (set_run_lock s false w)) with (token_bits w).
      rewrite cancel_token_set_run_lock.
      by apply TokenFacts.triggered_trigger.
Qed.

(** *** No second [run] *)

Lemma settle_keeps_cancelled limit start waits st s :
  triggered (token_bits (world st)) (cancel_token (service (world st) s))
    = true ->
  triggered (token_bits (world (settle env limit start waits st)))
    (cancel_token (service (world (settle env limit start waits st)) s))
    = true.
Proof.
  intros H.
  destruct (settle_world limit start waits st) as (Hb & _ & _ & _ & Ht & _).
  cbv zeta in Hb, Ht. by rewrite Hb, Ht.
Qed.

(** X7.  A service runs once.  When [_run()] has ended, however [run] goes
    on from there (it returns, it raises what the teardown or the callback
    raised, or it waits for ever for a child), the service is left
    cancelled: any further [run] raises [RuntimeError] and any further
    [cancel] only logs its warning.  This holds as long as the teardown and
    the callback do not themselves undo the cancellation. *)
Theorem run_only_once (s : sid) (finished_callback again : option Callback)
    (st : St) (after : nat) (raised : option exn) (w : World) :
  is_running (world st) s = false ->
  triggered (token_bits (world st)) (cancel_token (service (world st) s))
    = false ->
  _run (methods env s) (set_run_lock s true (world st))
    = Finishes after raised w ->
  allocated (token_bits w) (cancel_token (service w s)) ->
  let fired := own_token_triggered s (run_left s st after raised w) in
  (forall a r w', _cleanup (methods env s) (world fired) = Finishes a r w' ->
                  keeps_cancelled s (world fired) w') ->
  (forall f w0, finished_callback = Some f ->
                keeps_cancelled s w0 (f s w0).1) ->
  let st' := state_of (run env s finished_callback st) in
  triggered (token_bits (world st')) (cancel_token (service (world st') s))
    = true /\
  (exists message, run env s again st' = Raised (RuntimeError message) st') /\
  cancel env s st' =
    Returned ()
      {| world := world st'; clock := clock st';
         trace := trace st' ++
           [(clock st',
             Log WARNING s
               "Tried to cancel %s, but it was already cancelled")] |}.
Proof.
  intros Hrun Hnot Hwork Halloc fired Hteardown Hcb st'.
  assert (triggered (token_bits (world st'))
            (cancel_token (service (world st') s)) = true) as Hfinal.
  { unfold st'.
    rewrite (run_work_finishes env s finished_callback st after raised w
               Hrun Hnot Hwork), state_of_reraised, run_finally_unfold,
      cleanup_unfold.
    fold fired. cbv zeta.
    assert (triggered (token_bits (world fired))
              (cancel_token (service (world fired) s)) = true) as Hfired.
    { unfold fired, own_token_triggered, run_left. cbn [world].
      change (service (with_token_bits ?f ?w0) s) with (service w0 s).
      cbn [with_token_bits token_bits].
      change (token_bits (set_run_lock s false w)) with (token_bits w).
      rewrite cancel_token_set_run_lock.
      by apply TokenFacts.triggered_trigger. }
    destruct (_cleanup (methods env s) (world fired)) as [|a [e|] w'] eqn:Hc.
    - cbn [state_of]. by apply settle_keeps_cancelled.
    - cbn [state_of]. apply settle_keeps_cancelled. cbn [world].
      by apply (Hteardown a (Some e) w').
    - assert (triggered (token_bits w') (cancel_token (service w' s)) = true)
        as Hw' by (by apply (Hteardown a None w')).
      set (done := settle env None fired _ _).
      assert (triggered (token_bits (world done))
                (cancel_token (service (world done) s)) = true) as Hdone
        by (by apply settle_keeps_cancelled).
      destruct (all_resolve env fired _); [|exact Hdone].
      assert (triggered (token_bits (set_cleaned_up s (world done)))
                (cancel_token (service (set_cleaned_up s (world done)) s))
              = true) as Hset.
      { rewrite cancel_token_set_cleaned_up. exact Hdone. }
      destruct finished_callback as [f|]; [|exact Hset].
      unfold call_back. cbn [world].
      pose proof (Hcb f (set_cleaned_up s (world done)) eq_refl Hset) as Hf.
      destruct (f s (set_cleaned_up s (world done))) as [w0 [e|]];
        cbn [state_of world]; exact Hf. }
  split; [exact Hfinal|]. split.
  - destruct (is_running (world st') s) eqn:Hr.
    + eexists. by apply run_while_running.
    + eexists. by apply run_after_trigger.
  - by apply cancel_triggered.
Qed.

(** *** [__init__] *)

Lemma init_unfold cls token st :
  let σ := token_bits (world st) in
  let made :=
    match token with
    | None => new cls σ
    | Some token => chain (new cls σ).1 token (new cls σ).2
    end in
  __init__ cls token st =
  Returned (length (services (world st)))
    {| world :=
         {| token_bits := made.2;
            services := services (world st) ++
              [{| class_name := cls; _run_lock := false; cleaned_up := false;
                  cancel_token := made.1; own_child_services := None |}];
            list_objects := list_objects (world st);
            scheduled := scheduled (world st) |};
       clock := clock st; trace := trace st |}.
Proof. unfold __init__, new, chain. by destruct token. Qed.

Lemma init_token cls token σ :
  let made :=
    match token with
    | None => new cls σ
    | Some token => chain (new cls σ).1 token (new cls σ).2
    end in
  (forall t, allocated σ t -> triggered made.2 t = triggered σ t) /\
  (match token with Some t => allocated σ t | None => True end ->
   allocated made.2 made.1 /\
   triggered made.2 made.1 =
     match token with Some t => triggered σ t | None => false end).
Proof.
  cbv zeta.
  assert (triggered (new cls σ).2 (new cls σ).1 = false) as Hbase.
  { cbn. by rewrite TokenFacts.own_fresh. }
  destruct token as [t|].
  - split.
    + intros t' Ht'. unfold chain, new. cbn [fst snd].
      by rewrite <- app_assoc, TokenFacts.triggered_weaken.
    + intros Ht.
      assert (allocated (new cls σ).2 t) as Ht1
        by (by apply TokenFacts.allocated_weaken).
      pose proof (TokenFacts.allocated_new cls σ) as Hb.
      split; [by apply TokenFacts.allocated_chain|].
      rewrite TokenFacts.triggered_chain by done. rewrite Hbase. cbn [orb].
      unfold new. cbn [snd]. by apply TokenFacts.triggered_weaken.
  - split.
    + intros t' Ht'. unfold new. cbn [snd]. by apply TokenFacts.triggered_weaken.
    + intros _. split; [apply TokenFacts.allocated_new|exact Hbase].
Qed.

(** X8.  [__init__] never fails and disturbs nothing: the services, lists
    and scheduled futures there were are as before, no time passes, and no
    token that existed changes its state.  The instance it makes is new, of
    the given class, not running and not cleaned up; it is cancelled from
    the start exactly if it was given a token that is triggered. *)
Theorem init_makes_a_fresh_service (cls : string) (token : option CancelToken)
    (st : St) :
  let self := length (services (world st)) in
  exists st',
    __init__ cls token st = Returned self st' /\
    length (services (world st')) = S self /\
    (forall s, s < self -> service (world st') s = service (world st) s) /\
    list_objects (world st') = list_objects (world st) /\
    scheduled (world st') = scheduled (world st) /\
    clock st' = clock st /\
    trace st' = trace st /\
    (forall t, allocated (token_bits (world st)) t ->
               triggered (token_bits (world st')) t
               = triggered (token_bits (world st)) t) /\
    class_name (service (world st') self) = cls /\
    is_running (world st') self = false /\
    cleaned_up (service (world st') self) = false /\
    (match token with
     | Some t => allocated (token_bits (world st)) t
     | None => True
     end ->
     allocated (token_bits (world st')) (cancel_token (service (world st') self)) /\
     triggered (token_bits (world st')) (cancel_token (service (world st') self))
     = match token with
       | Some t => triggered (token_bits (world st)) t
       | None => false
       end).
Proof.
  cbv zeta. eexists. split; [apply init_unfold|]. cbv zeta.
  destruct (init_token cls token (token_bits (world st))) as [Hold Hnew].
  cbv zeta in Hold, Hnew.
  unfold is_running, service. cbn [world clock trace services token_bits
    list_objects scheduled].
  rewrite list_lookup_middle by done. cbn [default class_name _run_lock
    cleaned_up cancel_token].
  repeat apply conj; try done.
  - rewrite length_app. cbn. lia.
  - intros s Hs. by rewrite lookup_app_l.
Qed.

(** X9.  Cancellation reaches a service through the token it was made with,
    and does not travel back.  Once the token given to [__init__] is
    triggered, the service refuses to [run] and its [cancel] only logs the
    warning; triggering the service's own token cancels the service and
    leaves the given token as it was. *)
Theorem service_is_cancelled_with_its_token (cls : string) (token : CancelToken)
    (finished_callback : option Callback) (st : St) :
  allocated (token_bits (world st)) token ->
  exists self st1,
    __init__ cls (Some token) st = Returned self st1 /\
    let own_token := cancel_token (service (world st1) self) in
    (forall st2,
       cancel_token (service (world st2) self) = own_token ->
       triggered (token_bits (world st2)) token = true ->
       (exists message,
          run env self finished_callback st2
          = Raised (RuntimeError message) st2) /\
       cancel env self st2 =
         Returned ()
           {| world := world st2; clock := clock st2;
              trace := trace st2 ++
                [(clock st2,
                  Log WARNING self
                    "Tried to cancel %s, but it was already cancelled")] |}) /\
    triggered (trigger own_token (token_bits (world st1))) own_token = true /\
    triggered (trigger own_token (token_bits (world st1))) token
    = triggered (token_bits (world st)) token.
Proof.
  intros Halloc.
  set (self := length (services (world st))).
  set (σ := token_bits (world st)).
  set (made := chain (new cls σ).1 token (new cls σ).2).
  exists self. eexists. split; [apply init_unfold|]. cbv zeta.
  fold σ. fold made. cbn [world token_bits].
  match goal with
  | |- context [cancel_token (service ?w self)] =>
    assert (cancel_token (service w self) = made.1) as ->
  end.
  { unfold service, self. cbn [services]. by rewrite list_lookup_middle. }
  destruct (init_token cls (Some token) σ) as [Hold Hnew]. cbv zeta in Hold, Hnew.
  fold made in Hold, Hnew. destruct (Hnew Halloc) as [Hmade _].
  repeat apply conj.
  - intros st2 Htok Hfired.
    assert (triggered (token_bits (world st2))
              (cancel_token (service (world st2) self)) = true) as Hc.
    { rewrite Htok. unfold made, chain. cbn [fst triggered existsb].
      rewrite Hfired. by rewrite !orb_true_r. }
    split; [|by apply cancel_triggered].
    destruct (is_running (world st2) self) eqn:Hr.
    + eexists. by apply run_while_running.
    + eexists. by apply run_after_trigger.
  - by apply TokenFacts.triggered_trigger.
  - rewrite TokenFacts.triggered_trigger_other; [by apply Hold|].
    unfold made, chain, new. cbn [fst snd bit]. intros Hin.
    unfold allocated in Halloc. rewrite Forall_forall in Halloc.
    apply Halloc in Hin. rewrite length_app in Hin. cbn in Hin. fold σ in Hin. lia.
Qed.

End More.

(** *** Executions of the further properties *)

(** Services whose teardown takes 1, in an event loop where the service 1 is
    cleaned up at time 4. *)
Definition slow_child : Env :=
  {| methods := fun _ =>
       {| _run w := Finishes 0 None w; _cleanup w := Finishes 1 None w |};
     cleaned_up_at := fun s => if decide (s = 1) then Some 4 else None;
     triggered_at := fun _ => None;
     released_at := fun _ => None |}.

(** Two instances of [EmptyService], neither registered with the other. *)
Definition two_services : St :=
  state_of ((__init__ "EmptyService" None ;; __init__ "EmptyService" None) boot).

(** A class whose teardown fails when it is called with the run-lock held,
    and is that of [EmptyService] otherwise. *)
Definition fails_under_lock : Env :=
  {| methods := fun s =>
       {| _run w := Finishes 0 None w;
          _cleanup w :=
            if is_running w s then Finishes 7 (Some (Fault "OSError")) w
            else Finishes 0 None w |};
     cleaned_up_at := fun _ => None;
     triggered_at := fun _ => None;
     released_at := fun _ => None |}.

(** A token, and nothing else yet. *)
Definition parent_token : St := state_of (token_new "parent" boot).

(** The parent's teardown ends at 1, its child is cleaned up at 4: its
    [cleanup] returns at 4. *)
Lemma cleanup_returns_with_the_last_witness :
  child_services (world with_child) 0 = [1] /\
  exists st',
    cleanup slow_child 0 with_child = Returned () st' /\
    clock st' = 4 /\
    exists after w,
      _cleanup (methods slow_child 0) (world with_child) = Finishes after None w /\
      clock with_child + after <= clock st'.
Proof.
  split; [reflexivity|].
  set (st' := state_of (cleanup slow_child 0 with_child)).
  assert (cleanup slow_child 0 with_child = Returned () st') as H
    by (vm_compute; reflexivity).
  destruct (cleanup_returns_with_the_last slow_child 0 with_child st' H)
    as (after & w & Hteardown & _ & Hle & _).
  exists st'. split; [exact H|]. split; [vm_compute; reflexivity|].
  exists after, w. by split.
Defined.

Lemma run_child_service_registers_witness :
  exists st',
    run_child_service 0 1 two_services = Returned 0 st' /\
    child_services (world st') 0 = [1] /\
    scheduled (world st') = [1].
Proof.
  assert (child_services_loc (world two_services) 0
          < length (list_objects (world two_services))) as Hloc
    by (vm_compute; constructor).
  destruct (run_child_service_registers quiet 0 1 two_services Hloc)
    as (st' & Hret & Hchildren & Hscheduled & _).
  exists st'. split; [exact Hret|]. split; [exact Hchildren|exact Hscheduled].
Defined.

Lemma cancel_then_cancel_witness :
  exists st1,
    cancel quiet 0 one_running = Returned () st1 /\
    exists message,
      run quiet 0 None st1 = Raised (RuntimeError message) st1.
Proof.
  assert (allocated (token_bits (world one_running))
            (cancel_token (service (world one_running) 0))) as Halloc
    by (repeat constructor).
  destruct (cancel_then_cancel quiet 0 None one_running Halloc eq_refl eq_refl)
    as (st1 & Hcancel & _ & _ & Hrun).
  exists st1. split; [exact Hcancel|exact Hrun].
Defined.

Lemma empty_service_run_witness :
  exists st',
    run quiet 0 None one_service = Returned () st' /\
    clock st' = clock one_service /\
    cleaned_up (service (world st') 0) = true.
Proof.
  assert (0 < length (services (world one_service))) as Hs
    by (vm_compute; constructor).
  assert (allocated (token_bits (world one_service))
            (cancel_token (service (world one_service) 0))) as Halloc
    by (repeat constructor).
  assert (Forall (fun c => cleaned_up (service (world one_service) c) = true)
            (child_services (world one_service) 0)) as Hset
    by (vm_compute; constructor).
  destruct (empty_service_run quiet 0 None one_service eq_refl Hs Halloc
              eq_refl eq_refl Hset)
    as (st' & Hrun & Hclock & _ & Hclean & _).
  exists st'. split; [exact Hrun|]. split; [exact Hclock|exact Hclean].
Defined.

Lemma callback_comes_last_witness :
  (0, CalledBack 0) ∈ added one_service (run quiet 0 (Some noted) one_service) /\
  0 = clock (state_of (run quiet 0 (Some noted) one_service)).
Proof.
  assert ((0, CalledBack 0)
            ∈ added one_service (run quiet 0 (Some noted) one_service)) as Hin.
  { apply list_elem_of_In. vm_compute. do 8 right. by left. }
  split; [exact Hin|].
  exact (proj1 (proj2 (callback_comes_last quiet 0 (Some noted) one_service 0 Hin))).
Defined.

Lemma run_asks_the_subclass_twice_witness :
  _cleanup (methods fails_under_lock 0) (world one_running)
    <> _cleanup (methods quiet 0) (world one_running) /\
  run fails_under_lock 0 None one_service = run quiet 0 None one_service.
Proof.
  split; [discriminate|].
  refine (proj1 (run_asks_the_subclass_twice quiet fails_under_lock 0 None
                   one_service _ _ _)).
  - intros c. reflexivity.
  - reflexivity.
  - intros after raised w [= <- <- <-]. vm_compute. reflexivity.
Defined.

Lemma run_only_once_witness :
  exists message,
    run quiet 0 None (state_of (run quiet 0 (Some noted) one_service))
    = Raised (RuntimeError message)
        (state_of (run quiet 0 (Some noted) one_service)).
Proof.
  refine (proj1 (proj2 (run_only_once quiet 0 (Some noted) None one_service
                          0 None (set_run_lock 0 true (world one_service))
                          eq_refl eq_refl eq_refl _ _ _))).
  - repeat constructor.
  - intros a r w' [= <- <- <-] H. exact H.
  - intros f w0 [= <-] H. exact H.
Defined.

Lemma service_is_cancelled_with_its_token_witness :
  exists self st1,
    __init__ "EmptyService" (Some (Tok "parent" 0 [])) parent_token
      = Returned self st1 /\
    triggered
      (trigger (cancel_token (service (world st1) self)) (token_bits (world st1)))
      (Tok "parent" 0 []) = false.
Proof.
  assert (allocated (token_bits (world parent_token)) (Tok "parent" 0 []))
    as Halloc by (repeat constructor).
  destruct (service_is_cancelled_with_its_token quiet "EmptyService"
              (Tok "parent" 0 []) None parent_token Halloc)
    as (self & st1 & Hinit & _ & _ & Hup).
  exists self, st1. split; [exact Hinit|]. rewrite Hup. reflexivity.
Defined.

End ServiceFacts.
